(** * KVEC mobile triage: the guideline chunking pipeline and the keyword triage

    A shallow embedding of [scripts/build_vector_db.py] (source filter,
    chunker, record assembly, batched embedding, collection writer) and of
    the keyword classifiers and the scoring of [evaluation/evaluate.py],
    with the properties of the design document stated and settled against
    them.

    Conventions.
    - A Python [str] is a [list ascii]; a character is read as the code point
      of the same number, so the model covers text in the Latin-1 range.
    - Python integers are [Z]; [//] by a positive literal is [Z.div].
    - A [while] loop that the source does not bound is run with fuel: [None]
      means that the fuel ran out, [Some r] that the loop left and returned
      [r].  Termination claims are stated as "some fuel returns".
    - A row of the corpus is a [gmap] from column names to Python values.
    - What the model and the tensor library compute in floating point, the
      text features and their division by the norm, are parameters. *)

From Stdlib Require Import ZArith List Ascii String Bool Lia QArith.
From Stdlib Require Import DecimalString DecimalNat Floats.SpecFloat.
From stdpp Require Import base option list gmap strings.

Local Open Scope Z_scope.

(** ** Python strings *)

Module Py.

Definition pystr := list ascii.

(** A literal. *)
Definition str (s : string) : pystr := list_ascii_of_string s.

(** [len(s)] *)
Definition len {A} (s : list A) : Z := Z.of_nat (length s).

(** How a slice bound is read against a sequence of length [n]: a negative
    bound counts from the end, and every bound is clipped to [0..n]. *)
Definition clamp_index (n i : Z) : Z :=
  if i <? 0 then Z.max (i + n) 0 else Z.min i n.

(** [s[lo:hi]] *)
Definition slice {A} (s : list A) (lo hi : Z) : list A :=
  let l := clamp_index (len s) lo in
  let h := clamp_index (len s) hi in
  take (Z.to_nat (h - l)) (drop (Z.to_nat l) s).

(** [s[:hi]] *)
Definition slice_to {A} (s : list A) (hi : Z) : list A := slice s 0 hi.

(** [str.isspace] on one character of the Latin-1 range: TAB..CR, FS..US,
    SPACE, NEL and NBSP. *)
Definition isspace (c : ascii) : bool :=
  let n := Z.of_nat (nat_of_ascii c) in
  ((9 <=? n) && (n <=? 13)) || ((28 <=? n) && (n <=? 32))
  || (n =? 133) || (n =? 160).

Fixpoint lstrip (s : pystr) : pystr :=
  match s with
  | c :: s' => if isspace c then lstrip s' else s
  | [] => []
  end.

Definition rstrip (s : pystr) : pystr := rev (lstrip (rev s)).

(** [s.strip()] *)
Definition strip (s : pystr) : pystr := rstrip (lstrip s).

Fixpoint startswith (sub s : pystr) : bool :=
  match sub, s with
  | [], _ => true
  | _ :: _, [] => false
  | a :: sub', b :: s' => Ascii.eqb a b && startswith sub' s'
  end.

(** [sub in s] *)
Fixpoint contains (sub s : pystr) : bool :=
  startswith sub s ||
  match s with
  | [] => false
  | _ :: s' => contains sub s'
  end.

(** [s.rfind(sub)], the scan carried with the index [i] of the head of [s]:
    the highest index at which [sub] starts, or [-1]. *)
Fixpoint rfind_from (sub s : pystr) (i : Z) : Z :=
  match s with
  | [] => if startswith sub [] then i else -1
  | _ :: s' =>
      let r := rfind_from sub s' (i + 1) in
      if 0 <=? r then r else if startswith sub s then i else -1
  end.

Definition rfind (s sub : pystr) : Z := rfind_from sub s 0.

(** No leading and no trailing whitespace. *)
Definition stripped (c : pystr) : Prop :=
  (forall a r, c = a :: r -> isspace a = false)
  /\ (forall a r, c = r ++ [a] -> isspace a = false).

(** [c.lower()] on one character of the Latin-1 range: A..Z and the
    accented capitals (all of C0..DE but the multiplication sign). *)
Definition lower_char (c : ascii) : ascii :=
  let n := nat_of_ascii c in
  if ((65 <=? n) && (n <=? 90))%nat
     || ((192 <=? n) && (n <=? 222) && negb (n =? 215))%nat
  then ascii_of_nat (n + 32) else c.

(** [s.lower()] *)
Definition lower (s : pystr) : pystr := map lower_char s.

End Py.

Import Py.

(** ** The chunker: [chunk_text] *)

Module Chunker.

Definition CHUNK_SIZE : Z := 400.
Definition CHUNK_OVERLAP : Z := 50.

(** One pass through the body of the [while] loop, up to the [append]: the
    chunk cut at [start] before it is stripped, and the final value of
    [end]. *)
Definition window (text : pystr) (chunk_size start : Z) : pystr * Z :=
  let end_ := start + chunk_size in
  let chunk := slice text start end_ in
  if end_ <? len text then
    let last_period := rfind chunk (str ". ") in
    if chunk_size / 2 <? last_period
    then (slice_to chunk (last_period + 1), start + last_period + 1)
    else (chunk, end_)
  else (chunk, end_).

(** A record of one iteration: where the window started, where it ended,
    and the unstripped chunk. *)
Record pass := { p_start : Z; p_end : Z; p_raw : pystr }.

(** The [while start < len(text)] loop, as the list of its iterations. *)
Fixpoint chunk_passes (fuel : nat) (text : pystr) (chunk_size overlap start : Z)
  {struct fuel} : option (list pass) :=
  if start <? len text then
    match fuel with
    | O => None
    | S fuel' =>
        let '(chunk, end_) := window text chunk_size start in
        cons {| p_start := start; p_end := end_; p_raw := chunk |}
          <$> chunk_passes fuel' text chunk_size overlap (end_ - overlap)
    end
  else Some [].

(** The loop with its accumulator: [chunks.append(chunk.strip())]. *)
Fixpoint chunk_loop (fuel : nat) (text : pystr) (chunk_size overlap start : Z)
  {struct fuel} : option (list pystr) :=
  if start <? len text then
    match fuel with
    | O => None
    | S fuel' =>
        let '(chunk, end_) := window text chunk_size start in
        cons (strip chunk)
          <$> chunk_loop fuel' text chunk_size overlap (end_ - overlap)
    end
  else Some [].

Definition chunk_text_fuel (fuel : nat) (text : pystr) (chunk_size overlap : Z)
  : option (list pystr) :=
  if len text <=? chunk_size then Some [text]
  else chunk_loop fuel text chunk_size overlap 0.

(** [chunk_text] returns [chunks] when some amount of fuel does. *)
Definition chunk_text_returns (text : pystr) (chunk_size overlap : Z)
  (chunks : list pystr) : Prop :=
  exists fuel, chunk_text_fuel fuel text chunk_size overlap = Some chunks.

(** [chunk_text] never leaves its loop. *)
Definition chunk_text_diverges (text : pystr) (chunk_size overlap : Z) : Prop :=
  forall fuel, chunk_text_fuel fuel text chunk_size overlap = None.

(** The value of [start] when the loop is left: the last pass's [end] less
    [overlap], or the initial [start] if there was no pass. *)
Definition final_start (overlap start : Z) (ps : list pass) : Z :=
  match last ps with
  | Some p => p_end p - overlap
  | None => start
  end.

(** [w] occurs in [a] as a run of consecutive characters. *)
Definition infix_of (w a : pystr) : Prop := exists p q, a = p ++ w ++ q.

(** Two chunks share [n] characters of text: some run of at least [n]
    characters occurs in both.  (The weakest reading; the end of one chunk
    being the start of the next is a special case.) *)
Definition shares_at_least (n : Z) (a b : pystr) : Prop :=
  exists w, n <= len w /\ infix_of w a /\ infix_of w b.

(** The run of [n] characters of [a] from position [i]. *)
Definition run_at (n i : nat) (a : pystr) : pystr := take n (drop i a).

(** Decides whether some run of exactly [n] characters occurs in both. *)
Definition has_common_run (n : nat) (a b : pystr) : bool :=
  existsb (fun i =>
    existsb (fun j =>
      bool_decide (run_at n i a = run_at n j b /\ length (run_at n i a) = n))
      (seq 0 (S (length b))))
    (seq 0 (S (length a))).

End Chunker.

Import Chunker.

(** ** Python values and exceptions *)

Module Value.

(** What a cell of a corpus row holds: [None] or a string. *)
Inductive pyval := PyNone | PyStr (s : pystr).

(** The exceptions the modelled code can run into. *)
Inductive exn := AttributeError | TypeError | IndexError.

(** A computation that returns or raises. *)
Inductive res (A : Type) := Ok (a : A) | Raise (e : exn).
Arguments Ok {A} a.
Arguments Raise {A} e.

#[export] Instance res_ret : MRet res := fun A a => Ok a.
#[export] Instance res_bind : MBind res := fun A B f m =>
  match m with Ok a => f a | Raise e => Raise e end.
#[export] Instance res_fmap : FMap res := fun A B f m =>
  match m with Ok a => Ok (f a) | Raise e => Raise e end.

(** Truth value of a cell: [None] and the empty string are false. *)
Definition truthy (v : pyval) : bool :=
  match v with
  | PyNone => false
  | PyStr [] => false
  | PyStr (_ :: _) => true
  end.

(** [a or b] *)
Definition py_or (a b : pyval) : pyval := if truthy a then a else b.

(** [v.lower()]: [None] has no such attribute. *)
Definition py_lower (v : pyval) : res pystr :=
  match v with
  | PyStr s => Ok (lower s)
  | PyNone => Raise AttributeError
  end.

(** How a cell prints inside an f-string. *)
Definition py_format (v : pyval) : pystr :=
  match v with
  | PyStr s => s
  | PyNone => str "None"
  end.

(** [str(i)] for a non-negative integer. *)
Definition str_of_nat (i : nat) : pystr :=
  list_ascii_of_string (NilEmpty.string_of_uint (Nat.to_uint i)).

(** [c.isdigit()] for the ten decimal digits. *)
Definition is_digit (c : ascii) : bool :=
  let n := nat_of_ascii c in ((48 <=? n) && (n <=? 57))%nat.

End Value.

Import Value.

(** ** The source filter: [load_guidelines] *)

Module SourceFilter.

(** A row of the corpus: a dictionary from column names to cells. *)
Abbreviation row := (gmap string pyval).

Definition ALLOWED_SOURCES : gset pystr :=
  {[ str "who"; str "cdc"; str "nice"; str "icrc" ]}.

(** The dictionary appended to [filtered]. *)
Record guideline := {
  g_id : pyval;
  g_title : pyval;
  g_source : pystr;
  g_text : pystr;
  g_url : pyval
}.

(** The body of the [for row in dataset] loop: [Ok None] when the row is
    passed over, [Ok (Some g)] when [g] is appended. *)
Definition filter_row (r : row) : res (option guideline) :=
  source ← py_lower (default (PyStr []) (r !! "source"%string));
  if bool_decide (source ∈ ALLOWED_SOURCES) then
    match py_or (default PyNone (r !! "clean_text"%string))
                (default (PyStr []) (r !! "raw_text"%string)) with
    | PyNone => Raise TypeError
    | PyStr text =>
        if 100 <? len text then
          Ok (Some {| g_id := default (PyStr []) (r !! "id"%string);
                      g_title := default (PyStr (str "Untitled")) (r !! "title"%string);
                      g_source := source;
                      g_text := text;
                      g_url := default (PyStr []) (r !! "url"%string) |})
        else Ok None
    end
  else Ok None.

Fixpoint load_guidelines (dataset : list row) : res (list guideline) :=
  match dataset with
  | [] => Ok []
  | r :: dataset' =>
      g ← filter_row r;
      filtered ← load_guidelines dataset';
      Ok (match g with Some g => g :: filtered | None => filtered end)
  end.

(** The design document's reading of a row.  The source tag, when the row
    has one that is a string. *)
Definition spec_source_tag (r : row) : option pystr :=
  match r !! "source"%string with
  | Some (PyStr s) => Some s
  | _ => None
  end.

(** The text: the primary field, or the raw text when the primary field is
    empty or absent. *)
Definition spec_text (r : row) : option pystr :=
  match r !! "clean_text"%string with
  | Some (PyStr (c :: s)) => Some (c :: s)
  | _ =>
      match r !! "raw_text"%string with
      | Some (PyStr s) => Some s
      | _ => None
      end
  end.

Definition spec_admits (r : row) : Prop :=
  exists tag text,
    spec_source_tag r = Some tag /\ lower tag ∈ ALLOWED_SOURCES
    /\ spec_text r = Some text /\ 100 < len text.

End SourceFilter.

Import SourceFilter.

(** ** Assembling the records: the chunking loop of [main] *)

Module Assembly.

(** An entry of [protocols], before its embedding is attached. *)
Record protocol := {
  p_id : pystr;
  p_title : pyval;
  p_source : pystr;
  p_text : pystr;
  p_url : pyval
}.

(** [f"{guideline['source']}_{guideline['id']}_chunk_{i}"] *)
Definition protocol_id (g : guideline) (i : nat) : pystr :=
  g_source g ++ str "_" ++ py_format (g_id g) ++ str "_chunk_" ++ str_of_nat i.

(** [chunk_text(guideline["text"])], with the default size and overlap and
    as much fuel as the text has characters. *)
Definition chunk_text (text : pystr) : option (list pystr) :=
  chunk_text_fuel (length text) text CHUNK_SIZE CHUNK_OVERLAP.

(** The inner loop: [for i, chunk in enumerate(chunks)]. *)
Definition protocols_of (g : guideline) (chunks : list pystr) : list protocol :=
  imap (fun i chunk =>
          {| p_id := protocol_id g i;
             p_title := g_title g;
             p_source := g_source g;
             p_text := chunk;
             p_url := g_url g |}) chunks.

(** The outer loop: [for guideline in guidelines]. *)
Fixpoint build_protocols (guidelines : list guideline) : option (list protocol) :=
  match guidelines with
  | [] => Some []
  | g :: guidelines' =>
      chunks ← chunk_text (g_text g);
      rest ← build_protocols guidelines';
      Some (protocols_of g chunks ++ rest)
  end.

(** What identifies the parent document in a chunk id. *)
Definition document_key (g : guideline) : pystr * pystr :=
  (g_source g, py_format (g_id g)).

End Assembly.

Import Assembly.

(** ** The numbers of the embeddings *)

(** The components of an embedding are IEEE 754 numbers.  What the tensor
    library computes on them, the norm of a row and the division by it in
    line 166 of the build script, is not spelled out here: how it rounds is
    the library's matter, and [generate_embeddings] below takes the whole
    expression as a parameter. *)
Module Normalizer.

Definition fzero : spec_float := S754_zero false.

End Normalizer.

Import Normalizer.

(** ** Writing the collection: the end of [main] *)

Module Writer.

(** An entry of [protocols] with its embedding, as it is dumped. *)
Record entry := {
  e_protocol : protocol;
  e_embedding : list spec_float
}.

(** [for i, protocol in enumerate(protocols): protocol["embedding"] =
    embeddings[i].tolist()], from index [i] on.  Indexing past the last row
    of the array raises. *)
Fixpoint attach_embeddings (i : nat) (protocols : list protocol)
  (embeddings : list (list spec_float)) : res (list entry) :=
  match protocols with
  | [] => Ok []
  | p :: protocols' =>
      match embeddings !! i with
      | None => Raise IndexError
      | Some e =>
          rest ← attach_embeddings (S i) protocols' embeddings;
          Ok ({| e_protocol := p; e_embedding := e |} :: rest)
      end
  end.

(** What [json.dump] is given: [Ok entries] is the content of the file,
    [Raise] means that the file was never opened. *)
Definition write_collection (protocols : list protocol)
  (embeddings : list (list spec_float)) : res (list entry) :=
  attach_embeddings 0 protocols embeddings.

End Writer.

Import Writer.

(** ** The keyword triage: [run_fallback_triage] *)

Module Triage.

Definition SPECIALTIES : list pystr :=
  [ str "Behavioral Health"; str "Cardiology"; str "Dermatology";
    str "Gastroenterology"; str "Neurology"; str "Oncology";
    str "Orthopedic Surgery"; str "Pain Management"; str "Primary Care";
    str "Pulmonology"; str "Rheumatology"; str "Sports Medicine";
    str "Urology"; str "Vascular Medicine"; str "Women's Health" ].

Record triage := { specialty : pystr; confidence : Q }.

(** [any(w in s for w in ws)] *)
Definition any_in (ws : list string) (s : pystr) : bool :=
  existsb (fun w => contains (str w) s) ws.

Definition run_fallback_triage (symptom : pystr) : triage :=
  let s := lower symptom in
  if contains (str "burn") s && (contains (str "pee") s || contains (str "urin") s)
  then {| specialty := str "Urology"; confidence := 85 # 100 |}
  else if contains (str "chest") s
          && (contains (str "eat") s || contains (str "food") s
              || contains (str "meal") s)
  then {| specialty := str "Gastroenterology"; confidence := 82 # 100 |}
  else if any_in ["sad"; "depress"; "anxious"; "panic"]%string s
  then {| specialty := str "Behavioral Health"; confidence := 80 # 100 |}
  else if any_in ["mole"; "rash"; "skin"; "itch"; "acne"]%string s
  then {| specialty := str "Dermatology"; confidence := 78 # 100 |}
  else if any_in ["heart"; "chest pain"; "palpitation"]%string s
  then {| specialty := str "Cardiology"; confidence := 75 # 100 |}
  else if any_in ["headache"; "migraine"; "numbness"; "tingling"; "confusion"]%string s
  then {| specialty := str "Neurology"; confidence := 75 # 100 |}
  else if any_in ["back pain"; "knee"; "shoulder"; "joint"]%string s
  then {| specialty := str "Orthopedic Surgery"; confidence := 75 # 100 |}
  else if any_in ["breath"; "cough"; "wheez"]%string s
  then {| specialty := str "Pulmonology"; confidence := 75 # 100 |}
  else if any_in ["period"; "menstrua"; "pelvic"; "hot flash"]%string s
  then {| specialty := str "Women's Health"; confidence := 75 # 100 |}
  else if any_in ["swallow"; "stomach"; "diarrhea"; "abdominal"; "stool"]%string s
  then {| specialty := str "Gastroenterology"; confidence := 75 # 100 |}
  else {| specialty := str "Primary Care"; confidence := 50 # 100 |}.

(** The ten specialties the keyword rules can answer. *)
Definition FALLBACK_SPECIALTIES : list pystr :=
  [ str "Urology"; str "Gastroenterology"; str "Behavioral Health";
    str "Dermatology"; str "Cardiology"; str "Neurology";
    str "Orthopedic Surgery"; str "Pulmonology"; str "Women's Health";
    str "Primary Care" ].

(** The rules read as a table: a test on the lowered symptom, and the answer
    when it is the first to succeed. *)
Definition rule : Type := (pystr -> bool) * triage.

Definition RULES : list rule :=
  [ (fun s => contains (str "burn") s
              && (contains (str "pee") s || contains (str "urin") s),
     {| specialty := str "Urology"; confidence := 85 # 100 |});
    (fun s => contains (str "chest") s
              && (contains (str "eat") s || contains (str "food") s
                  || contains (str "meal") s),
     {| specialty := str "Gastroenterology"; confidence := 82 # 100 |});
    (any_in ["sad"; "depress"; "anxious"; "panic"]%string,
     {| specialty := str "Behavioral Health"; confidence := 80 # 100 |});
    (any_in ["mole"; "rash"; "skin"; "itch"; "acne"]%string,
     {| specialty := str "Dermatology"; confidence := 78 # 100 |});
    (any_in ["heart"; "chest pain"; "palpitation"]%string,
     {| specialty := str "Cardiology"; confidence := 75 # 100 |});
    (any_in ["headache"; "migraine"; "numbness"; "tingling"; "confusion"]%string,
     {| specialty := str "Neurology"; confidence := 75 # 100 |});
    (any_in ["back pain"; "knee"; "shoulder"; "joint"]%string,
     {| specialty := str "Orthopedic Surgery"; confidence := 75 # 100 |});
    (any_in ["breath"; "cough"; "wheez"]%string,
     {| specialty := str "Pulmonology"; confidence := 75 # 100 |});
    (any_in ["period"; "menstrua"; "pelvic"; "hot flash"]%string,
     {| specialty := str "Women's Health"; confidence := 75 # 100 |});
    (any_in ["swallow"; "stomach"; "diarrhea"; "abdominal"; "stool"]%string,
     {| specialty := str "Gastroenterology"; confidence := 75 # 100 |}) ].

Definition PRIMARY_CARE : triage :=
  {| specialty := str "Primary Care"; confidence := 50 # 100 |}.

(** The answer of the first rule whose test succeeds, [PRIMARY_CARE] when
    none does. *)
Definition first_match (rules : list rule) (s : pystr) : triage :=
  match List.find (fun r => fst r s) rules with
  | Some r => snd r
  | None => PRIMARY_CARE
  end.

End Triage.

Import Triage.

(** ** Batched encoding: [generate_embeddings] *)

Module Embeddings.

(** What can stop the embedding pass and [main]: a [ValueError] of the
    numeric library or of [range], an exception of the code modelled above,
    or a chunker that does not come back. *)
Inductive fault := ValueError | Builtin (e : exn) | Diverged.

Inductive attempt (A : Type) := Returned (a : A) | Failed (f : fault).
Arguments Returned {A} a.
Arguments Failed {A} f.

#[export] Instance attempt_ret : MRet attempt := fun A a => Returned a.
#[export] Instance attempt_bind : MBind attempt := fun A B f m =>
  match m with Returned a => f a | Failed e => Failed e end.

(** [range(0, stop, step)] *)
Definition range_from_zero (stop step : Z) : attempt (list Z) :=
  if step =? 0 then Failed ValueError
  else
    let count :=
      if 0 <? step
      then (if 0 <? stop then (stop - 1) / step + 1 else 0)
      else (if stop <? 0 then (- stop - 1) / (- step) + 1 else 0) in
    Returned (map (fun k => Z.of_nat k * step) (seq 0 (Z.to_nat count))).

(** A two-dimensional array: its number of columns and its rows. *)
Record ndarray := { nd_cols : nat; nd_rows : list (list spec_float) }.

(** [np.vstack]: no array, or arrays that differ in their number of
    columns, are refused. *)
Definition vstack (arrays : list ndarray) : attempt ndarray :=
  match arrays with
  | [] => Failed ValueError
  | a :: rest =>
      if forallb (fun b => (nd_cols b =? nd_cols a)%nat) rest
      then Returned {| nd_cols := nd_cols a;
                       nd_rows := concat (map nd_rows arrays) |}
      else Failed ValueError
  end.

Section Encoder.
(** The tokeniser and [model.get_text_features] on one batch of texts. *)
Variable encode : list pystr -> ndarray.
(** [outputs / outputs.norm(dim=-1, keepdim=True)]: every row divided by its
    norm, as the tensor library computes it. *)
Variable normalise : ndarray -> ndarray.

(** The body of the [for i in range(0, len(texts), batch_size)] loop: the
    batch is cut out, encoded, and its rows are normalised. *)
Definition embed_batch (texts : list pystr) (batch_size i : Z) : ndarray :=
  let batch_texts := slice texts i (i + batch_size) in
  let outputs := encode batch_texts in
  normalise outputs.

Definition generate_embeddings (texts : list pystr) (batch_size : Z)
  : attempt ndarray :=
  starts ← range_from_zero (len texts) batch_size;
  vstack (map (embed_batch texts batch_size) starts).

End Encoder.

(** The batches the loop cuts, for a positive batch size. *)
Definition batches (texts : list pystr) (batch_size : Z) : list (list pystr) :=
  match range_from_zero (len texts) batch_size with
  | Returned starts => map (fun i => slice texts i (i + batch_size)) starts
  | Failed _ => []
  end.

End Embeddings.

Import Embeddings.

(** ** From the corpus to the collection: the data path of [main] *)

Module Pipeline.

(** The chunking loop of [main] with both of its accumulators,
    [protocols] and [chunk_texts]. *)
Fixpoint build_chunks (guidelines : list guideline)
  : option (list protocol * list pystr) :=
  match guidelines with
  | [] => Some ([], [])
  | g :: guidelines' =>
      chunks ← chunk_text (g_text g);
      '(protocols, chunk_texts) ← build_chunks guidelines';
      Some (protocols_of g chunks ++ protocols, chunks ++ chunk_texts)
  end.

Section Encoder.
Variable encode : list pystr -> ndarray.
Variable normalise : ndarray -> ndarray.

(** The part of [main] that makes the collection, lines 181 to 225: the
    corpus is loaded, chunked, embedded, and the embeddings are attached.
    [Returned entries] is the list handed to [json.dump]; [Failed] is an
    exception of one of these steps, raised before the file is opened.
    Not part of it: loading and exporting the model, the output to the
    console, and the statistics printed once the file is closed. *)
Definition main_collection (dataset : list row) : attempt (list entry) :=
  match load_guidelines dataset with
  | Raise e => Failed (Builtin e)
  | Ok guidelines =>
      match build_chunks guidelines with
      | None => Failed Diverged
      | Some (protocols, chunk_texts) =>
          match generate_embeddings encode normalise chunk_texts 32 with
          | Failed f => Failed f
          | Returned embeddings =>
              match write_collection protocols (nd_rows embeddings) with
              | Raise e => Failed (Builtin e)
              | Ok entries => Returned entries
              end
          end
      end
  end.

End Encoder.

End Pipeline.

Import Pipeline.

(** ** The evaluation script: label clean-up and scoring *)

Module Evaluation.

(** The [aliases] dictionary of [_find_specialty], in the order it is
    written, which is the order it is iterated in. *)
Definition ALIASES : list (pystr * pystr) :=
  [ (str "mental health", str "Behavioral Health");
    (str "psychiatry", str "Behavioral Health");
    (str "heart", str "Cardiology");
    (str "cardiac", str "Cardiology");
    (str "skin", str "Dermatology");
    (str "gi", str "Gastroenterology");
    (str "neuro", str "Neurology");
    (str "cancer", str "Oncology");
    (str "ortho", str "Orthopedic Surgery");
    (str "lung", str "Pulmonology");
    (str "bladder", str "Urology");
    (str "kidney", str "Urology");
    (str "gynecology", str "Women's Health");
    (str "ob/gyn", str "Women's Health") ].

(** [MedGemmaClassifier._find_specialty] *)
Definition _find_specialty (text : pystr) : pystr :=
  let text_lower := lower text in
  match List.find (fun specialty => contains (lower specialty) text_lower)
          SPECIALTIES with
  | Some specialty => specialty
  | None =>
      match List.find (fun a => contains (fst a) text_lower) ALIASES with
      | Some a => snd a
      | None => str "Primary Care"
      end
  end.

(** [SetFitClassifier.name_mapping] *)
Definition name_mapping : gmap pystr pystr :=
  list_to_map
    [ (str "Heart and Vascular", str "Cardiology");
      (str "Orthopedics", str "Orthopedic Surgery");
      (str "Gynecology", str "Women's Health");
      (str "Neurosurgery", str "Neurology");
      (str "Rheumatology Immunology and Allergy", str "Rheumatology");
      (str "Diabetes and Endocrinology", str "Primary Care");
      (str "Ear Nose and Throat Otolaryngology", str "Primary Care");
      (str "Audiology", str "Primary Care");
      (str "Bariatrics", str "Primary Care");
      (str "Neonatology", str "Primary Care");
      (str "Ophthalmology", str "Primary Care");
      (str "Sleep Center", str "Primary Care");
      (str "Wound Care", str "Primary Care") ].

(** [SetFitClassifier._map_specialty] *)
Definition _map_specialty (name : pystr) : pystr :=
  default name (name_mapping !! name).

(** [str(i)] for any integer. *)
Definition str_of_int (i : Z) : pystr :=
  if i <? 0 then "-"%char :: str_of_nat (Z.to_nat (- i))
  else str_of_nat (Z.to_nat i).

(** The ["specialty"] entry of [SetFitClassifier.classify], given the label
    table and the class the head predicted. *)
Definition setfit_specialty (labels : gmap pystr pystr) (predicted_class : Z)
  : pystr :=
  _map_specialty (default (str "Primary Care") (labels !! str_of_int predicted_class)).

Record test_case := { symptom : pystr; expected : pystr }.

Definition TEST_CASES : list test_case :=
  [
    {| symptom := str "burning pain when I pee, have to urinate frequently";
       expected := str "Urology" |};
    {| symptom := str "blood in my urine and lower back pain";
       expected := str "Urology" |};
    {| symptom := str "difficulty starting to urinate, weak stream, getting up multiple times at night";
       expected := str "Urology" |};
    {| symptom := str "chest pain that gets worse with exertion, shortness of breath";
       expected := str "Cardiology" |};
    {| symptom := str "heart racing for no reason, palpitations especially at night";
       expected := str "Cardiology" |};
    {| symptom := str "swollen ankles and legs, difficulty breathing when lying down";
       expected := str "Cardiology" |};
    {| symptom := str "chest pain after eating, burning in my throat, acid taste";
       expected := str "Gastroenterology" |};
    {| symptom := str "trouble swallowing, food getting stuck in my throat";
       expected := str "Gastroenterology" |};
    {| symptom := str "severe abdominal cramping, blood in stool, diarrhea for weeks";
       expected := str "Gastroenterology" |};
    {| symptom := str "feeling anxious and can't sleep, constant worry";
       expected := str "Behavioral Health" |};
    {| symptom := str "lost interest in activities, feeling hopeless, no energy";
       expected := str "Behavioral Health" |};
    {| symptom := str "panic attacks, racing heart, feeling like I'm going to die";
       expected := str "Behavioral Health" |};
    {| symptom := str "severe headaches with visual aura, sensitivity to light";
       expected := str "Neurology" |};
    {| symptom := str "numbness and tingling in hands and feet, weakness";
       expected := str "Neurology" |};
    {| symptom := str "sudden confusion, difficulty speaking, one side weakness";
       expected := str "Neurology" |};
    {| symptom := str "itchy red rash on arms that spreads, dry flaky skin";
       expected := str "Dermatology" |};
    {| symptom := str "changing mole, irregular borders, getting darker";
       expected := str "Dermatology" |};
    {| symptom := str "severe acne, painful cysts on face and back";
       expected := str "Dermatology" |};
    {| symptom := str "lower back pain radiating to leg, numbness in foot";
       expected := str "Orthopedic Surgery" |};
    {| symptom := str "knee swelling after injury, can't bear weight";
       expected := str "Orthopedic Surgery" |};
    {| symptom := str "shoulder pain, can't raise arm above head, grinding noise";
       expected := str "Orthopedic Surgery" |};
    {| symptom := str "chronic cough, wheezing, difficulty breathing especially at night";
       expected := str "Pulmonology" |};
    {| symptom := str "shortness of breath getting worse, persistent cough with mucus";
       expected := str "Pulmonology" |};
    {| symptom := str "coughing up blood, unexplained weight loss, chest pain";
       expected := str "Pulmonology" |};
    {| symptom := str "joint pain in multiple joints, morning stiffness lasting hours";
       expected := str "Rheumatology" |};
    {| symptom := str "fatigue, joint pain, butterfly rash on face";
       expected := str "Rheumatology" |};
    {| symptom := str "red swollen big toe, sudden severe pain, can't touch it";
       expected := str "Rheumatology" |};
    {| symptom := str "irregular periods, severe cramping, heavy bleeding";
       expected := str "Women's Health" |};
    {| symptom := str "pelvic pain, pain during intercourse, difficulty getting pregnant";
       expected := str "Women's Health" |};
    {| symptom := str "hot flashes, night sweats, mood changes, missed periods";
       expected := str "Women's Health" |};
    {| symptom := str "fatigue, always tired, no energy even with sleep";
       expected := str "Primary Care" |};
    {| symptom := str "always thirsty, urinating frequently, unexplained weight loss";
       expected := str "Primary Care" |};
    {| symptom := str "sore throat, runny nose, mild cough for a few days";
       expected := str "Primary Care" |};
    {| symptom := str "chronic pain everywhere, tender points, fibromyalgia diagnosed";
       expected := str "Pain Management" |};
    {| symptom := str "severe back pain for years, tried everything, need pain relief";
       expected := str "Pain Management" |};
    {| symptom := str "unexplained weight loss, night sweats, swollen lymph nodes";
       expected := str "Oncology" |};
    {| symptom := str "lump in breast, nipple discharge, family history of cancer";
       expected := str "Oncology" |};
    {| symptom := str "runner's knee pain, pain going down stairs, swelling";
       expected := str "Sports Medicine" |};
    {| symptom := str "tennis elbow, pain on outside of elbow, worse with gripping";
       expected := str "Sports Medicine" |};
    {| symptom := str "leg pain when walking, relieved by rest, cold feet";
       expected := str "Vascular Medicine" |};
    {| symptom := str "swollen leg, red and warm, pain in calf";
       expected := str "Vascular Medicine" |};
    {| symptom := str "seeing floaters and flashing lights in vision";
       expected := str "Neurology" |};
    {| symptom := str "ear ringing constant, hearing loss, dizziness";
       expected := str "Primary Care" |};
    {| symptom := str "hair falling out in patches, brittle nails";
       expected := str "Dermatology" |};
    {| symptom := str "difficulty concentrating, memory problems, brain fog";
       expected := str "Neurology" |}
  ].

(** A row of the data frame [evaluate] returns, without its timing. *)
Record eval_row := {
  r_symptom : pystr;
  r_expected : pystr;
  r_predicted : pystr;
  r_confidence : Q;
  r_correct : bool
}.

(** [evaluate(classifier_fn, name)] *)
Definition evaluate (classifier_fn : pystr -> triage) : list eval_row :=
  map (fun tc =>
         let result := classifier_fn (symptom tc) in
         {| r_symptom := symptom tc;
            r_expected := expected tc;
            r_predicted := specialty result;
            r_confidence := confidence result;
            r_correct := bool_decide (specialty result = expected tc) |})
      TEST_CASES.

(** [df['correct'].sum()] *)
Definition correct_sum (df : list eval_row) : nat :=
  length (filter (fun r => r_correct r = true) df).

(** The specialties no keyword rule answers. *)
Definition UNANSWERED_SPECIALTIES : list pystr :=
  [ str "Oncology"; str "Pain Management"; str "Rheumatology";
    str "Sports Medicine"; str "Vascular Medicine" ].

End Evaluation.

Import Evaluation.

(** Membership in a list given in full. *)
Ltac in_list := simpl; repeat ((left; reflexivity) || right).

(** * Properties *)

(** ** The model on small inputs *)

Example slice_negative_start :
  slice (str "abcdefgh") (-3) 9 = str "fgh"
  /\ slice (str "abcdefgh") (-1) 3 = []
  /\ slice (str "abcdefgh") 2 (-2) = str "cdef".
Proof. repeat split. Qed.

Example rfind_last_occurrence :
  rfind (str "a. b. c") (str ". ") = 4 /\ rfind (str "abc") (str ". ") = -1.
Proof. split; reflexivity. Qed.

Example strip_both_ends :
  strip (str "  a b	 ") = str "a b" /\ strip (str "   ") = [].
Proof. split; reflexivity. Qed.

Example lower_ascii : lower (str "Chest PAIN") = str "chest pain".
Proof. reflexivity. Qed.

(** The scenario with dense sentence ends. *)
Example chunk_text_dense :
  chunk_text_fuel 8 (str "A. B. C.") 4 1
  = Some [str "A. B"; str "B. C"; str "C."].
Proof. reflexivity. Qed.

(** A window is cut back to a sentence end past its middle. *)
Example chunk_text_snaps :
  chunk_text_fuel 12 (str "abcdef. ghij") 10 2
  = Some [str "abcdef."; str "f. ghij"].
Proof. reflexivity. Qed.

(** A thousand characters without punctuation, shipped configuration. *)
Example chunk_text_thousand :
  map (length (A:=ascii)) <$> chunk_text (repeat "x"%char 1000)
  = Some [400; 400; 300]%nat.
Proof. by vm_compute. Qed.

Example str_of_nat_decimal :
  str_of_nat 0 = str "0" /\ str_of_nat 12 = str "12".
Proof. split; reflexivity. Qed.

Example protocol_id_format :
  protocol_id {| g_id := PyStr (str "ab12"); g_title := PyNone;
                 g_source := str "who"; g_text := []; g_url := PyNone |} 3
  = str "who_ab12_chunk_3".
Proof. reflexivity. Qed.

Example run_fallback_triage_urology :
  run_fallback_triage (str "Burning pain when I pee")
  = {| specialty := str "Urology"; confidence := 85 # 100 |}.
Proof. reflexivity. Qed.

(** ** Slices *)

Section Slices.
Context {A : Type}.
Implicit Types s : list A.

Lemma len_nonneg s : 0 <= len s.
Proof. unfold len. lia. Qed.

Lemma clamp_index_range n i : 0 <= n -> 0 <= clamp_index n i <= n.
Proof. unfold clamp_index. destruct (Z.ltb_spec i 0); lia. Qed.

Lemma length_slice s lo hi :
  len (slice s lo hi)
  = Z.max 0 (clamp_index (len s) hi - clamp_index (len s) lo).
Proof.
  pose proof (clamp_index_range (len s) lo (len_nonneg s)).
  pose proof (clamp_index_range (len s) hi (len_nonneg s)).
  unfold slice, len in *. rewrite length_take, length_drop. lia.
Qed.

(** A window of width [hi - lo] holds at most that many characters, also
    when it starts before the text. *)
Lemma length_slice_le s lo hi : lo <= hi -> len (slice s lo hi) <= hi - lo.
Proof.
  intros Hle. rewrite length_slice. pose proof (len_nonneg s).
  unfold clamp_index.
  destruct (Z.ltb_spec hi 0), (Z.ltb_spec lo 0); lia.
Qed.

Lemma length_slice_inside s lo hi :
  0 <= lo <= hi -> hi <= len s -> len (slice s lo hi) = hi - lo.
Proof.
  intros Hlo Hhi. rewrite length_slice. unfold clamp_index.
  destruct (Z.ltb_spec hi 0), (Z.ltb_spec lo 0); lia.
Qed.

Lemma slice_nonneg s lo hi :
  0 <= lo -> 0 <= hi ->
  slice s lo hi
  = take (Z.to_nat (Z.min hi (len s)) - Z.to_nat (Z.min lo (len s)))
      (drop (Z.to_nat (Z.min lo (len s))) s).
Proof.
  intros Hlo Hhi. unfold slice, clamp_index.
  destruct (Z.ltb_spec hi 0), (Z.ltb_spec lo 0); try lia.
  f_equal. lia.
Qed.

(** Cutting a slice in two at an inner position. *)
Lemma slice_split s a b c :
  0 <= a <= b -> b <= c -> slice s a c = slice s a b ++ slice s b c.
Proof.
  intros Hab Hbc. rewrite !slice_nonneg by lia.
  set (n := len s).
  set (a' := Z.to_nat (Z.min a n)). set (b' := Z.to_nat (Z.min b n)).
  set (c' := Z.to_nat (Z.min c n)).
  assert (a' <= b' <= c')%nat as [H1 H2] by (subst a' b' c'; lia).
  replace (drop b' s) with (drop (b' - a') (drop a' s))
    by (rewrite drop_drop; f_equal; lia).
  rewrite take_take_drop. f_equal. lia.
Qed.

(** The head of a slice is a shorter slice of the same text. *)
Lemma slice_to_slice s a b k :
  0 <= a <= b -> 0 <= k <= len (slice s a b) ->
  slice_to (slice s a b) k = slice s a (a + k).
Proof.
  intros Hab Hk. unfold slice_to.
  rewrite (slice_nonneg _ 0 k) by lia.
  rewrite Z.min_l by lia. rewrite Z.min_l by lia.
  change (Z.to_nat 0) with 0%nat. rewrite drop_0, Nat.sub_0_r.
  rewrite length_slice in Hk. pose proof (len_nonneg s).
  unfold clamp_index in Hk.
  destruct (Z.ltb_spec b 0), (Z.ltb_spec a 0); try lia.
  rewrite !slice_nonneg by lia.
  rewrite take_take. f_equal. lia.
Qed.

End Slices.

(** ** Searching and stripping *)

Lemma startswith_length sub s :
  startswith sub s = true -> (length sub <= length s)%nat.
Proof.
  revert s. induction sub as [|a sub IH]; intros [|b s]; simpl; try lia.
  intros [_ H]%andb_prop. apply IH in H. lia.
Qed.

(** [rfind] answers [-1] or a position at which [sub] fits in [s]. *)
Lemma rfind_from_range sub s i :
  0 <= i ->
  rfind_from sub s i = -1
  \/ (i <= rfind_from sub s i /\ rfind_from sub s i + len sub <= i + len s).
Proof.
  revert i. induction s as [|c s IH]; intros i Hi; simpl.
  - destruct sub; simpl; [right; unfold len; simpl; lia | by left].
  - destruct (IH (i + 1) ltac:(lia)) as [-> | [H1 H2]].
    + simpl. destruct (startswith sub (c :: s)) eqn:E; [right | by left].
      apply startswith_length in E. unfold len in *. simpl in *. lia.
    + destruct (Z.leb_spec 0 (rfind_from sub s (i + 1))); [|lia].
      right. unfold len in *. simpl length. lia.
Qed.

Lemma rfind_range s sub :
  rfind s sub = -1 \/ (0 <= rfind s sub /\ rfind s sub + len sub <= len s).
Proof.
  unfold rfind. destruct (rfind_from_range sub s 0 ltac:(lia)) as [?|?]; [by left|].
  right. lia.
Qed.

Lemma lstrip_head s a r : lstrip s = a :: r -> isspace a = false.
Proof.
  induction s as [|c s IH]; simpl; [discriminate|].
  destruct (isspace c) eqn:E; [done|]. by intros [= <- _].
Qed.

Lemma lstrip_suffix s : lstrip s `suffix_of` s.
Proof.
  induction s as [|c s IH]; simpl; [done|].
  destruct (isspace c); [by apply suffix_cons_r | done].
Qed.

Lemma rstrip_last s a r : rstrip s = r ++ [a] -> isspace a = false.
Proof.
  unfold rstrip. intros H. apply (f_equal (@rev ascii)) in H.
  rewrite rev_involutive, rev_app_distr in H. simpl in H.
  by eapply lstrip_head.
Qed.

Lemma rstrip_prefix s : rstrip s `prefix_of` s.
Proof.
  unfold rstrip. destruct (lstrip_suffix (rev s)) as [k Hk].
  exists (rev k). apply (f_equal (@rev ascii)) in Hk.
  by rewrite rev_involutive, rev_app_distr in Hk.
Qed.

Lemma strip_stripped s : stripped (strip s).
Proof.
  unfold strip. split.
  - intros a r H. destruct (rstrip_prefix (lstrip s)) as [k Hk].
    rewrite H in Hk. simpl in Hk. by eapply lstrip_head.
  - intros a r H. by eapply rstrip_last.
Qed.

(** ** One window *)

Lemma window_spec text cs start raw e :
  0 < cs -> window text cs start = (raw, e) ->
  start + Z.min cs (cs / 2 + 2) <= e <= start + cs
  /\ (0 <= start -> raw = slice text start e).
Proof.
  intros Hcs. unfold window.
  assert (0 <= cs / 2) by (apply Z.div_pos; lia).
  destruct (Z.ltb_spec (start + cs) (len text)) as [Hin|Hout].
  - set (chunk := slice text start (start + cs)).
    destruct (Z.ltb_spec (cs / 2) (rfind chunk (str ". "))) as [Hsnap|Hno].
    + intros [= <- <-].
      pose proof (length_slice_le text start (start + cs) ltac:(lia)) as Hlen.
      fold chunk in Hlen.
      destruct (rfind_range chunk (str ". ")) as [?|[? Hfit]]; [lia|].
      change (len (str ". ")) with 2 in Hfit.
      change ["."%char; " "%char] with (str ". ").
      split; [lia|]. intros Hs. subst chunk.
      rewrite slice_to_slice by lia. f_equal. lia.
    + intros [= <- <-]. split; [lia | done].
  - intros [= <- <-]. split; [lia | done].
Qed.

(** ** The loop *)

Lemma chunk_loop_passes fuel text cs ov start :
  chunk_loop fuel text cs ov start
  = map (fun p => strip (p_raw p)) <$> chunk_passes fuel text cs ov start.
Proof.
  revert start. induction fuel as [|fuel IH]; intros start; simpl.
  - by destruct (start <? len text).
  - destruct (start <? len text); [|done].
    destruct (window text cs start) as [raw e]. rewrite IH.
    by destruct (chunk_passes fuel text cs ov (e - ov)).
Qed.

(** With [overlap] below both the window width and the shortest snapped
    window, every pass moves [start] forward, so [len text - start] passes
    are enough. *)
Lemma chunk_passes_total text cs ov :
  0 <= ov < cs -> ov <= cs / 2 + 1 ->
  forall fuel start,
    (Z.to_nat (len text - start) <= fuel)%nat ->
    is_Some (chunk_passes fuel text cs ov start).
Proof.
  intros Hov Hhalf. induction fuel as [|fuel IH]; intros start Hfuel; simpl.
  - destruct (Z.ltb_spec start (len text)); [lia | done].
  - destruct (Z.ltb_spec start (len text)); [|done].
    destruct (window text cs start) as [raw e] eqn:W.
    apply window_spec in W as [He _]; [|lia].
    destruct (IH (e - ov) ltac:(lia)) as [ps ->]. done.
Qed.

(** More fuel does not change what the loop returned. *)
Lemma chunk_passes_fuel_mono text cs ov fuel fuel' start ps :
  chunk_passes fuel text cs ov start = Some ps -> (fuel <= fuel')%nat ->
  chunk_passes fuel' text cs ov start = Some ps.
Proof.
  revert fuel' start ps. induction fuel as [|fuel IH]; intros fuel' start ps; simpl.
  - destruct (start <? len text) eqn:E; [done|]. intros [= <-] _.
    destruct fuel'; simpl; by rewrite E.
  - destruct (start <? len text) eqn:E.
    + destruct (window text cs start) as [raw e] eqn:W.
      destruct (chunk_passes fuel text cs ov (e - ov)) as [r|] eqn:R; [|done].
      intros [= <-] Hle. destruct fuel' as [|fuel']; [lia|]. simpl.
      rewrite E, W. by rewrite (IH fuel' _ r R ltac:(lia)).
    + intros [= <-] _. destruct fuel'; simpl; by rewrite E.
Qed.

Lemma chunk_text_fuel_mono text cs ov fuel fuel' chunks :
  chunk_text_fuel fuel text cs ov = Some chunks -> (fuel <= fuel')%nat ->
  chunk_text_fuel fuel' text cs ov = Some chunks.
Proof.
  unfold chunk_text_fuel. destruct (len text <=? cs); [done|].
  rewrite !chunk_loop_passes. intros H Hle.
  destruct (chunk_passes fuel text cs ov 0) as [ps|] eqn:E; [|done].
  by rewrite (chunk_passes_fuel_mono _ _ _ _ _ _ _ E Hle).
Qed.

(** [chunk_text] is a function: two runs return the same chunks. *)
Lemma chunk_text_returns_unique text cs ov c1 c2 :
  chunk_text_returns text cs ov c1 -> chunk_text_returns text cs ov c2 -> c1 = c2.
Proof.
  intros [f1 H1] [f2 H2].
  apply (chunk_text_fuel_mono _ _ _ _ (f1 `max` f2)%nat) in H1; [|lia].
  apply (chunk_text_fuel_mono _ _ _ _ (f1 `max` f2)%nat) in H2; [|lia].
  congruence.
Qed.

(** The first pass of a loop that returned, and the loop that follows. *)
Lemma chunk_passes_cons fuel text cs ov start w rest :
  chunk_passes fuel text cs ov start = Some (w :: rest) ->
  start < len text /\ p_start w = start
  /\ window text cs start = (p_raw w, p_end w)
  /\ exists fuel', chunk_passes fuel' text cs ov (p_end w - ov) = Some rest.
Proof.
  destruct fuel as [|fuel]; simpl.
  - by destruct (start <? len text).
  - destruct (Z.ltb_spec start (len text)); [|done].
    destruct (window text cs start) as [raw e].
    destruct (chunk_passes fuel text cs ov (e - ov)) as [r|] eqn:R; [|done].
    intros [= <- <-]. simpl. eauto.
Qed.

Lemma final_start_cons ov start w rest :
  final_start ov start (w :: rest) = final_start ov (p_end w - ov) rest.
Proof.
  unfold final_start. destruct rest as [|p rest]; [done|].
  change (last (w :: p :: rest)) with (last (p :: rest)).
  destruct (last (p :: rest)) eqn:E; [done|]. by apply last_None in E.
Qed.

(** Every pass starts inside the text, and the loop is left with [start] at
    or past the end of the text. *)
Lemma chunk_passes_stop fuel text cs ov start ps :
  chunk_passes fuel text cs ov start = Some ps ->
  Forall (fun p => p_start p < len text) ps
  /\ len text <= final_start ov start ps.
Proof.
  revert start ps. induction fuel as [|fuel IH]; intros start ps; simpl.
  - destruct (Z.ltb_spec start (len text)); [done|]. intros [= <-].
    split; [constructor | done].
  - destruct (Z.ltb_spec start (len text)).
    + destruct (window text cs start) as [raw e].
      destruct (chunk_passes fuel text cs ov (e - ov)) as [r|] eqn:R; [|done].
      intros [= <-]. destruct (IH _ _ R) as [Hall Hfin].
      rewrite final_start_cons. split; [constructor|]; done.
    + intros [= <-]. split; [constructor | done].
Qed.

(** With [overlap] at least the window width no pass moves [start]
    forward: a loop entered at or before the start of a non-empty text is
    never left. *)
Lemma chunk_loop_stuck text cs ov :
  0 < cs <= ov -> 0 < len text ->
  forall fuel start, start <= 0 -> chunk_loop fuel text cs ov start = None.
Proof.
  intros Hcs Hlen. induction fuel as [|fuel IH]; intros start Hstart; simpl.
  - destruct (Z.ltb_spec start (len text)); [done | lia].
  - destruct (Z.ltb_spec start (len text)); [|lia].
    destruct (window text cs start) as [raw e] eqn:W.
    apply window_spec in W as [He _]; [|lia].
    by rewrite IH by lia.
Qed.

Lemma chunk_text_short text cs ov fuel :
  len text <= cs -> chunk_text_fuel fuel text cs ov = Some [text].
Proof.
  intros H. unfold chunk_text_fuel. by destruct (Z.leb_spec (len text) cs); [|lia].
Qed.

(** Consecutive passes: the later one starts [overlap] characters before the
    end of the earlier one, and when the earlier one ended inside the text
    those [overlap] characters close the one and open the other. *)
Lemma adjacent_passes text cs ov :
  0 <= ov < cs -> ov <= cs / 2 + 1 ->
  forall i fuel start ps w1 w2,
    0 <= start ->
    chunk_passes fuel text cs ov start = Some ps ->
    ps !! i = Some w1 -> ps !! S i = Some w2 ->
    p_start w2 = p_end w1 - ov
    /\ (p_end w1 <= len text ->
        let w := slice text (p_end w1 - ov) (p_end w1) in
        len w = ov /\ w `suffix_of` p_raw w1 /\ w `prefix_of` p_raw w2).
Proof.
  intros Hov Hhalf. induction i as [|i IH]; intros fuel start ps w1 w2 Hs Hps H1 H2.
  - destruct ps as [|w rest]; [done|]. injection H1 as ->.
    apply chunk_passes_cons in Hps as (_ & Hst1 & W1 & fuel' & Hrest).
    destruct rest as [|w rest']; [done|]. injection H2 as ->.
    apply chunk_passes_cons in Hrest as (_ & Hst2 & W2 & _).
    apply window_spec in W1 as [He1 Hraw1]; [|lia].
    apply window_spec in W2 as [He2 Hraw2]; [|lia].
    split; [done|]. intros Hin. cbv zeta.
    rewrite Hraw1, Hraw2 by lia. repeat split.
    + rewrite length_slice_inside; lia.
    + exists (slice text start (p_end w1 - ov)).
      apply slice_split; lia.
    + exists (slice text (p_end w1) (p_end w2)).
      apply slice_split; lia.
  - destruct ps as [|w rest]; [done|].
    pose proof Hps as Hps'.
    apply chunk_passes_cons in Hps' as (_ & _ & W & fuel' & Hrest).
    apply window_spec in W as [He _]; [|lia].
    eapply (IH fuel' (p_end w - ov) rest); [lia | done | done | done].
Qed.

(** A run of at least [n] characters of [a] begins with a run of exactly
    [n] characters that starts somewhere in [a]. *)
Lemma infix_run_at (n : nat) w a :
  infix_of w a -> (n <= length w)%nat ->
  exists i, (i <= length a)%nat /\ run_at n i a = take n w /\ length (take n w) = n.
Proof.
  intros (p & q & ->) Hn. exists (length p). repeat split.
  - rewrite !length_app. lia.
  - unfold run_at. rewrite drop_app_length. by rewrite take_app_le.
  - rewrite length_take. lia.
Qed.

Lemma shares_at_least_common_run (n : nat) a b :
  shares_at_least (Z.of_nat n) a b -> has_common_run n a b = true.
Proof.
  intros (w & Hn & Ha & Hb). unfold len in Hn.
  destruct (infix_run_at n w a Ha ltac:(lia)) as (i & Hi & Hra & Hl).
  destruct (infix_run_at n w b Hb ltac:(lia)) as (j & Hj & Hrb & _).
  unfold has_common_run. apply existsb_exists. exists i. split.
  { apply in_seq. lia. }
  apply existsb_exists. exists j. split.
  { apply in_seq. lia. }
  apply bool_decide_eq_true. split; congruence.
Qed.

(** ** The chunker: the properties of the design document *)

(** C1 (as amended).  For every text and every configuration with
    [0 <= overlap < chunk_size] and [overlap <= chunk_size // 2 + 1],
    [chunk_text] terminates: [len(text)] passes are enough, every pass
    starts inside the text, and the loop is left once [start] has reached or
    passed [len(text)]. *)
Theorem chunk_text_terminates text cs ov :
  0 <= ov < cs -> ov <= cs / 2 + 1 ->
  exists chunks,
    chunk_text_fuel (length text) text cs ov = Some chunks
    /\ (cs < len text ->
        exists ps,
          chunk_passes (length text) text cs ov 0 = Some ps
          /\ chunks = map (fun p => strip (p_raw p)) ps
          /\ Forall (fun p => p_start p < len text) ps
          /\ len text <= final_start ov 0 ps).
Proof.
  intros Hov Hhalf. unfold chunk_text_fuel.
  destruct (Z.leb_spec (len text) cs) as [Hshort|Hlong].
  - exists [text]. split; [done | lia].
  - destruct (chunk_passes_total text cs ov Hov Hhalf (length text) 0) as [ps Hps].
    { unfold len. lia. }
    exists (map (fun p => strip (p_raw p)) ps). rewrite chunk_loop_passes, Hps.
    split; [done|]. intros _. exists ps.
    destruct (chunk_passes_stop _ _ _ _ _ _ Hps). done.
Qed.

(** The scenario of C1: "A. B. C." with [chunk_size = 4], [overlap = 1]. *)
Lemma chunk_text_terminates_witness :
  exists chunks,
    chunk_text_fuel 8 (str "A. B. C.") 4 1 = Some chunks
    /\ (4 < len (str "A. B. C.") ->
        exists ps,
          chunk_passes 8 (str "A. B. C.") 4 1 0 = Some ps
          /\ chunks = map (fun p => strip (p_raw p)) ps
          /\ Forall (fun p => p_start p < len (str "A. B. C.")) ps
          /\ len (str "A. B. C.") <= final_start 1 0 ps).
Proof.
  apply (chunk_text_terminates (str "A. B. C.") 4 1); [lia|].
  change (4 / 2) with 2. lia.
Defined.

(** C1, as stated, fails: with [chunk_size = 5] and [overlap = 4] the text
    "abc. efgh" has a sentence end at index 3, the first window is cut back
    to "abc." with [end = 4], and [start = end - overlap] is 0 again. *)
Lemma chunk_text_dense_boundary_loops :
  0 <= 4 < 5 /\ chunk_text_diverges (str "abc. efgh") 5 4.
Proof.
  split; [lia|]. intros fuel. unfold chunk_text_fuel.
  change (len (str "abc. efgh") <=? 5) with false. cbv iota.
  induction fuel as [|fuel IH]; [reflexivity|].
  change (chunk_loop (S fuel) (str "abc. efgh") 5 4 0)
    with (cons (strip (str "abc.")) <$> chunk_loop fuel (str "abc. efgh") 5 4 0).
  by rewrite IH.
Qed.

(** C3 (as amended).  For every text longer than [chunk_size], with
    [0 <= overlap < chunk_size] and [overlap <= chunk_size // 2 + 1], the
    loop returns, each window starts exactly [overlap] characters before the
    end of the window before it, and whenever the earlier window ended inside
    the text the two unstripped windows share exactly those [overlap]
    characters: they close the earlier one and open the later one. *)
Theorem adjacent_windows_overlap text cs ov :
  0 <= ov < cs -> ov <= cs / 2 + 1 -> cs < len text ->
  exists ps,
    chunk_passes (length text) text cs ov 0 = Some ps
    /\ chunk_text_fuel (length text) text cs ov
       = Some (map (fun p => strip (p_raw p)) ps)
    /\ forall i w1 w2,
         ps !! i = Some w1 -> ps !! S i = Some w2 ->
         p_start w2 = p_end w1 - ov
         /\ (p_end w1 <= len text ->
             let w := slice text (p_end w1 - ov) (p_end w1) in
             len w = ov /\ w `suffix_of` p_raw w1 /\ w `prefix_of` p_raw w2).
Proof.
  intros Hov Hhalf Hlong.
  destruct (chunk_passes_total text cs ov Hov Hhalf (length text) 0) as [ps Hps].
  { unfold len. lia. }
  exists ps. split; [done|]. split.
  - unfold chunk_text_fuel. destruct (Z.leb_spec (len text) cs); [lia|].
    by rewrite chunk_loop_passes, Hps.
  - intros i w1 w2 H1 H2.
    by eapply (adjacent_passes text cs ov Hov Hhalf i _ 0 ps).
Qed.

Lemma adjacent_windows_overlap_witness :
  exists ps,
    chunk_passes 8 (str "abcd efg") 5 2 0 = Some ps
    /\ chunk_text_fuel 8 (str "abcd efg") 5 2
       = Some (map (fun p => strip (p_raw p)) ps)
    /\ forall i w1 w2,
         ps !! i = Some w1 -> ps !! S i = Some w2 ->
         p_start w2 = p_end w1 - 2
         /\ (p_end w1 <= len (str "abcd efg") ->
             let w := slice (str "abcd efg") (p_end w1 - 2) (p_end w1) in
             len w = 2 /\ w `suffix_of` p_raw w1 /\ w `prefix_of` p_raw w2).
Proof.
  apply (adjacent_windows_overlap (str "abcd efg") 5 2).
  - lia.
  - change (5 / 2) with 2. lia.
  - change (len (str "abcd efg")) with 8. lia.
Defined.

(** C3, as stated, fails in two ways.  Stripping removes shared whitespace:
    "abcd efgh" with [chunk_size = 5], [overlap = 2] gives "abcd" and
    "d efg", which have one character in common.  And a window that ran past
    the end of the text can be followed by one shorter than [overlap]:
    "abcdefg" gives "abcde", "defg", "g". *)
Lemma adjacent_chunks_share_less :
  (len (str "abcd efgh") > 5 /\ 0 <= 2 < 5
   /\ chunk_text_fuel 9 (str "abcd efgh") 5 2
      = Some [str "abcd"; str "d efg"; str "fgh"]
   /\ ~ shares_at_least 2 (str "abcd") (str "d efg"))
  /\ (len (str "abcdefg") > 5
      /\ chunk_text_fuel 7 (str "abcdefg") 5 2
         = Some [str "abcde"; str "defg"; str "g"]
      /\ ~ shares_at_least 2 (str "defg") (str "g")).
Proof.
  repeat split; try reflexivity; try lia.
  - intros H%(shares_at_least_common_run 2). by vm_compute in H.
  - intros H%(shares_at_least_common_run 2). by vm_compute in H.
Qed.

(** C4: the early return hands the text back as it is, one chunk equal to
    the input and not to the stripped input.  On " a " under the shipped
    configuration the one chunk is " a ", where the loop would have appended
    the stripped "a". *)
Theorem chunk_text_short_not_stripped :
  (forall text cs ov fuel,
     len text <= cs -> chunk_text_fuel fuel text cs ov = Some [text])
  /\ len (str " a ") <= CHUNK_SIZE
  /\ chunk_text_fuel 0 (str " a ") CHUNK_SIZE CHUNK_OVERLAP = Some [str " a "]
  /\ strip (str " a ") = str "a"
  /\ [str " a "] <> [strip (str " a ")].
Proof.
  split.
  - intros text cs ov fuel Hshort. by apply chunk_text_short.
  - split; [by vm_compute|]. split; [reflexivity|]. split; [reflexivity|].
    by vm_compute.
Qed.

(** C5 (as amended).  For every text longer than [chunk_size], every chunk
    that [chunk_text] returns has been stripped of leading and trailing
    whitespace, and nothing is dropped: there is one chunk for each pass of
    the loop, empty or not.  (It does return when
    [0 <= overlap < chunk_size] and [overlap <= chunk_size // 2 + 1].) *)
Theorem chunks_stripped_none_dropped text cs ov :
  cs < len text ->
  (forall fuel chunks,
     chunk_text_fuel fuel text cs ov = Some chunks ->
     exists ps,
       chunk_passes fuel text cs ov 0 = Some ps
       /\ chunks = map (fun p => strip (p_raw p)) ps
       /\ length chunks = length ps
       /\ Forall stripped chunks)
  /\ (0 <= ov < cs -> ov <= cs / 2 + 1 ->
      exists chunks, chunk_text_fuel (length text) text cs ov = Some chunks).
Proof.
  intros Hlong. split.
  - intros fuel chunks. unfold chunk_text_fuel.
    destruct (Z.leb_spec (len text) cs); [lia|].
    rewrite chunk_loop_passes.
    destruct (chunk_passes fuel text cs ov 0) as [ps|]; [|done].
    intros [= <-]. exists ps. repeat split.
    + by rewrite length_map.
    + apply Forall_map, Forall_forall. intros p _. apply strip_stripped.
  - intros Hov Hhalf.
    destruct (chunk_passes_total text cs ov Hov Hhalf (length text) 0) as [ps Hps].
    { unfold len. lia. }
    exists (map (fun p => strip (p_raw p)) ps). unfold chunk_text_fuel.
    destruct (Z.leb_spec (len text) cs); [lia|].
    by rewrite chunk_loop_passes, Hps.
Qed.

Lemma chunks_stripped_none_dropped_witness :
  exists ps,
    chunk_passes 9 (str "ab     cd") 4 1 0 = Some ps
    /\ [str "ab"; []; str "cd"] = map (fun p => strip (p_raw p)) ps
    /\ length [str "ab"; []; str "cd"] = length ps
    /\ Forall stripped [str "ab"; []; str "cd"].
Proof.
  assert (4 < len (str "ab     cd")) as Hlong by (by vm_compute).
  destruct (chunks_stripped_none_dropped (str "ab     cd") 4 1 Hlong) as [Hret _].
  apply (Hret 9%nat). reflexivity.
Defined.

(** C5, as stated, fails: empty chunks are returned.  A text of 401 spaces
    under the shipped configuration gives two empty chunks, and the early
    return hands back the empty text as one empty chunk. *)
Lemma chunk_text_returns_empty_chunks :
  chunk_text_fuel 401 (repeat " "%char 401) CHUNK_SIZE CHUNK_OVERLAP
  = Some [[]; []]
  /\ chunk_text_fuel 0 [] CHUNK_SIZE CHUNK_OVERLAP = Some [[]].
Proof. split; by vm_compute. Qed.

(** C6 (as amended).  [chunk_text] does not compare [overlap] with
    [chunk_size].  With [0 < chunk_size <= overlap] a text that fits in one
    chunk is returned as usual, and a longer text enters the loop, which
    then never ends: no pass moves [start] forward. *)
Theorem overlap_not_validated text cs ov :
  0 < cs <= ov ->
  (len text <= cs -> forall fuel, chunk_text_fuel fuel text cs ov = Some [text])
  /\ (cs < len text -> chunk_text_diverges text cs ov).
Proof.
  intros Hcs. split.
  - intros Hshort fuel. by apply chunk_text_short.
  - intros Hlong fuel. unfold chunk_text_fuel.
    destruct (Z.leb_spec (len text) cs); [lia|].
    apply chunk_loop_stuck; lia.
Qed.

Lemma overlap_not_validated_witness :
  (len (str "abcdefgh") <= 4 ->
   forall fuel, chunk_text_fuel fuel (str "abcdefgh") 4 4 = Some [str "abcdefgh"])
  /\ (4 < len (str "abcdefgh") -> chunk_text_diverges (str "abcdefgh") 4 4).
Proof. apply (overlap_not_validated (str "abcdefgh") 4 4). lia. Defined.

(** C6, as stated, fails: [overlap = 5 >= chunk_size = 4] is not rejected.
    The text "ab" is chunked as with any other configuration, and the text
    "abcdefgh" reaches the loop and stays in it. *)
Lemma overlap_above_chunk_size_accepted :
  5 >= 4
  /\ chunk_text_fuel 0 (str "ab") 4 5 = Some [str "ab"]
  /\ chunk_text_diverges (str "abcdefgh") 4 5.
Proof.
  split; [lia|]. split; [reflexivity|].
  intros fuel. unfold chunk_text_fuel.
  change (len (str "abcdefgh") <=? 4) with false. cbv iota.
  apply chunk_loop_stuck; [lia | | lia]. by vm_compute.
Qed.

(** ** The source filter *)

Lemma blog_not_allowed : str "blog" ∉ ALLOWED_SOURCES.
Proof.
  unfold ALLOWED_SOURCES. rewrite !elem_of_union, !elem_of_singleton.
  by intros [[[?|?]|?]|?].
Qed.

Lemma empty_not_allowed : [] ∉ ALLOWED_SOURCES.
Proof.
  unfold ALLOWED_SOURCES. rewrite !elem_of_union, !elem_of_singleton.
  by intros [[[?|?]|?]|?].
Qed.

(** A row that is passed over leaves no trace in what the loader returns. *)
Lemma load_guidelines_skip r before after :
  filter_row r = Ok None ->
  load_guidelines (before ++ r :: after) = load_guidelines (before ++ after).
Proof.
  intros Hr. induction before as [|b before IH]; simpl.
  - rewrite Hr. simpl. by destruct (load_guidelines after).
  - by rewrite IH.
Qed.

Lemma filter_row_source r g :
  filter_row r = Ok (Some g) -> g_source g ∈ ALLOWED_SOURCES.
Proof.
  unfold filter_row.
  destruct (py_lower _) as [source|]; simpl; [|done].
  case_bool_decide; [|done].
  destruct (py_or _ _) as [|text]; [done|].
  destruct (100 <? len text); [|done]. by intros [= <-].
Qed.


(** The loader at one row of the corpus: what was loaded before it, what
    the row gives, what is loaded after it. *)
Lemma load_guidelines_middle before r after :
  load_guidelines (before ++ r :: after)
  = (gs1 ← load_guidelines before;
     o ← filter_row r;
     gs2 ← load_guidelines after;
     Ok (gs1 ++ option_list o ++ gs2)).
Proof.
  induction before as [|b before IH]; simpl.
  - destruct (filter_row r) as [[g|]|]; simpl; [| |done];
      by destruct (load_guidelines after).
  - destruct (filter_row b) as [gb|]; simpl; [|done]. rewrite IH.
    destruct (load_guidelines before) as [gs1|]; simpl; [|done].
    destruct (filter_row r) as [o|]; simpl; [|done].
    destruct (load_guidelines after) as [gs2|]; simpl; [|done].
    by destruct gb.
Qed.

(** C8.  A row is admitted exactly when its source tag, lowered, is on the
    allow-list and its text, the primary field or else the raw text, is
    longer than 100 characters; the admitted document carries that lowered
    tag and that text.  Admitted means appended: in what [load_guidelines]
    returns, the document of an admitted row stands between the documents
    of the rows before it and those of the rows after it, and a row that is
    not admitted leaves nothing there.  A row tagged "blog" is passed over,
    and the loader returns what it returns for the corpus without that row. *)
Theorem source_filter_admits (r : row) :
  ((exists g, filter_row r = Ok (Some g)) <-> spec_admits r)
  /\ (forall g, filter_row r = Ok (Some g) ->
        exists tag,
          spec_source_tag r = Some tag /\ g_source g = lower tag
          /\ spec_text r = Some (g_text g))
  /\ (forall tag,
        spec_source_tag r = Some tag -> lower tag = str "blog" ->
        filter_row r = Ok None
        /\ forall before after,
             load_guidelines (before ++ r :: after)
             = load_guidelines (before ++ after))
  /\ (forall before after gs1 gs2,
        load_guidelines before = Ok gs1 -> load_guidelines after = Ok gs2 ->
        (spec_admits r ->
         exists g,
           filter_row r = Ok (Some g)
           /\ load_guidelines (before ++ r :: after) = Ok (gs1 ++ g :: gs2))
        /\ (~ spec_admits r -> (exists o, filter_row r = Ok o) ->
            load_guidelines (before ++ r :: after) = Ok (gs1 ++ gs2)))
  /\ (forall before after gs,
        load_guidelines (before ++ r :: after) = Ok gs ->
        exists gs1 gs2 o,
          load_guidelines before = Ok gs1 /\ load_guidelines after = Ok gs2
          /\ filter_row r = Ok o /\ (is_Some o <-> spec_admits r)
          /\ gs = gs1 ++ option_list o ++ gs2).
Proof.
  assert (forall g, filter_row r = Ok (Some g) ->
            exists tag,
              spec_source_tag r = Some tag /\ lower tag ∈ ALLOWED_SOURCES
              /\ g_source g = lower tag
              /\ spec_text r = Some (g_text g) /\ 100 < len (g_text g)) as Hsound.
  { intros g. unfold filter_row, spec_source_tag, spec_text.
    destruct (r !! "source"%string) as [[|tag]|]; simpl; [done| |].
    - case_bool_decide as Hin; [|done].
      destruct (r !! "clean_text"%string) as [[|[|c s]]|]; simpl;
        (destruct (r !! "raw_text"%string) as [[|raw]|]; simpl; try done);
        match goal with |- context [100 <? ?n] =>
          destruct (Z.ltb_spec 100 n); [|done] end;
        intros [= <-]; simpl; eauto 10.
    - case_bool_decide as Hin; [|done]. by apply empty_not_allowed in Hin. }
  assert ((exists g, filter_row r = Ok (Some g)) <-> spec_admits r) as Hiff.
  { split.
    - intros [g Hg]. destruct (Hsound g Hg) as (tag & ? & ? & ? & ? & ?).
      exists tag, (g_text g). done.
    - intros (tag & text & Htag & Hin & Htext & Hlen).
      unfold filter_row, spec_source_tag, spec_text in *.
      destruct (r !! "source"%string) as [[|tag']|]; simplify_eq/=.
      rewrite bool_decide_eq_true_2 by done.
      destruct (r !! "clean_text"%string) as [[|[|c s]]|]; simplify_eq/=;
        try (destruct (r !! "raw_text"%string) as [[|raw]|]; simplify_eq/=);
        match goal with |- context [100 <? ?n] =>
          destruct (Z.ltb_spec 100 n); [|lia] end; eauto. }
  split; [done|]. split; [|split; [|split]].
  - intros g Hg. destruct (Hsound g Hg) as (tag & ? & ? & ? & ? & ?). eauto.
  - intros tag Htag Hblog.
    assert (filter_row r = Ok None) as Hskip.
    { unfold filter_row, spec_source_tag in *.
      destruct (r !! "source"%string) as [[|tag']|]; simplify_eq/=.
      rewrite Hblog. rewrite bool_decide_eq_false_2; [done|].
      apply blog_not_allowed. }
    split; [done|]. intros before after. by apply load_guidelines_skip.
  - intros before after gs1 gs2 H1 H2. rewrite load_guidelines_middle, H1, H2.
    simpl. split.
    + intros [g Hg]%Hiff. exists g. by rewrite Hg.
    + intros Hnot [[g|] Ho]; rewrite Ho; simpl; [|done].
      destruct Hnot. apply Hiff. by exists g.
  - intros before after gs. rewrite load_guidelines_middle.
    destruct (load_guidelines before) as [gs1|]; simpl; [|done].
    destruct (filter_row r) as [o|] eqn:Ho; simpl; [|done].
    destruct (load_guidelines after) as [gs2|]; simpl; [|done].
    intros [= <-]. exists gs1, gs2, o. repeat split; try done.
    + intros [g ->]. apply Hiff. by exists g.
    + intros [g Hg]%Hiff. exists g. congruence.
Qed.

Lemma source_filter_admits_witness :
  let text := repeat "x"%char 101 in
  let r : row := {[ "source"%string := PyStr (str "WHO");
                    "raw_text"%string := PyStr text ]} in
  let b : row := {[ "source"%string := PyStr (str "Blog");
                    "clean_text"%string := PyStr text ]} in
  (exists g, filter_row r = Ok (Some g)
             /\ load_guidelines ([b] ++ r :: [b]) = Ok ([] ++ g :: []))
  /\ filter_row b = Ok None
  /\ load_guidelines [r; b; r] = load_guidelines [r; r].
Proof.
  intros text r b.
  destruct (source_filter_admits r) as (_ & _ & _ & Hload & _).
  destruct (source_filter_admits b) as (_ & _ & Hblog & _).
  split; [|split].
  - apply (Hload [b] [b] [] []); [by vm_compute | by vm_compute |].
    exists (str "WHO"), text. split; [reflexivity|]. split.
    + apply (bool_decide_unpack _). by vm_compute.
    + split; [reflexivity | by vm_compute].
  - apply (Hblog (str "Blog")); reflexivity.
  - apply (proj2 (Hblog (str "Blog") eq_refl eq_refl) [r] [r]).
Defined.

(** ** The writer *)

(** Attaching from index [i] on succeeds exactly when the array has a row
    for every entry, and pairs entry [k] with row [i + k]. *)
Lemma attach_embeddings_ok protocols embeddings i :
  (i + length protocols <= length embeddings)%nat ->
  attach_embeddings i protocols embeddings
  = Ok (zip_with Build_entry protocols (drop i embeddings)).
Proof.
  revert i. induction protocols as [|p protocols IH]; intros i Hlen; simpl.
  - done.
  - simpl in Hlen.
    destruct (lookup_lt_is_Some_2 embeddings i ltac:(lia)) as [e He].
    rewrite He, IH by lia. simpl.
    by rewrite (drop_S _ _ _ He).
Qed.

Lemma attach_embeddings_short protocols embeddings i :
  (i <= length embeddings < i + length protocols)%nat ->
  attach_embeddings i protocols embeddings = Raise IndexError.
Proof.
  revert i. induction protocols as [|p protocols IH]; intros i Hlen; simpl.
  - simpl in Hlen. lia.
  - simpl in Hlen. destruct (embeddings !! i) as [e|] eqn:He; [|done].
    apply lookup_lt_Some in He. by rewrite IH by lia.
Qed.

(** C7 (as amended).  The writer verifies nothing.  When the array of
    embeddings has at least as many rows as there are entries, entry [k] is
    written with row [k], whatever the ids and whatever the rows; rows
    beyond the last entry are left out without a word.  Only an array with
    fewer rows than entries stops the run, with an index error raised before
    the file is opened. *)
Theorem write_collection_unchecked protocols embeddings :
  ((length protocols <= length embeddings)%nat ->
   write_collection protocols embeddings
   = Ok (zip_with Build_entry protocols embeddings))
  /\ ((length embeddings < length protocols)%nat ->
      write_collection protocols embeddings = Raise IndexError).
Proof.
  unfold write_collection. split; intros Hlen.
  - by rewrite attach_embeddings_ok.
  - apply attach_embeddings_short. lia.
Qed.

Lemma write_collection_unchecked_witness :
  let p := {| p_id := str "who_7_chunk_0"; p_title := PyNone;
              p_source := str "who"; p_text := str "text"; p_url := PyNone |} in
  ((length [p] <= length [[fzero]; [fzero]])%nat ->
   write_collection [p] [[fzero]; [fzero]]
   = Ok (zip_with Build_entry [p] [[fzero]; [fzero]]))
  /\ ((length [[fzero]; [fzero]] < length [p])%nat ->
      write_collection [p] [[fzero]; [fzero]] = Raise IndexError).
Proof. intros p. apply (write_collection_unchecked [p] [[fzero]; [fzero]]). Defined.

(** C7, as stated, fails: two entries with the same id and an array with a
    row too many are written as they come. *)
Lemma duplicate_ids_and_surplus_rows_written :
  let p := {| p_id := str "who_7_chunk_0"; p_title := PyNone;
              p_source := str "who"; p_text := str "text"; p_url := PyNone |} in
  let one := S754_finite false 8388608 (-23) in
  let embeddings := [[one; fzero]; [fzero; one]; [one; fzero]] in
  ~ NoDup (map p_id [p; p])
  /\ length [p; p] <> length embeddings
  /\ write_collection [p; p] embeddings
     = Ok [ {| e_protocol := p; e_embedding := [one; fzero] |};
            {| e_protocol := p; e_embedding := [fzero; one] |} ].
Proof.
  intros p one embeddings. split; [|split; [by vm_compute | reflexivity]].
  simpl. intros H. apply NoDup_cons in H as [H _]. apply H. left.
Qed.

(** ** The keyword triage *)

(** C10.  [run_fallback_triage] is a total function of its input.  Its
    answer is the answer of the first rule, in the order of the source,
    whose test succeeds on the lowered input, and "Primary Care" with
    confidence 0.50 when no test does; the specialty is one of ten of the
    fifteen specialties and the confidence lies between 0.50 and 0.85. *)
Theorem run_fallback_triage_first_match (symptom : pystr) :
  run_fallback_triage symptom = first_match RULES (lower symptom)
  /\ ((forall r, In r RULES -> fst r (lower symptom) = false) ->
      run_fallback_triage symptom
      = {| specialty := str "Primary Care"; confidence := 50 # 100 |})
  /\ In (specialty (run_fallback_triage symptom)) FALLBACK_SPECIALTIES
  /\ (50 # 100 <= confidence (run_fallback_triage symptom) <= 85 # 100)%Q
  /\ length FALLBACK_SPECIALTIES = 10%nat
  /\ NoDup FALLBACK_SPECIALTIES
  /\ incl FALLBACK_SPECIALTIES SPECIALTIES.
Proof.
  assert (run_fallback_triage symptom = first_match RULES (lower symptom)) as Heq.
  { unfold run_fallback_triage, first_match, RULES. cbn [List.find fst snd].
    repeat match goal with
           | |- context [if ?b then _ else _] => destruct b; [reflexivity|]
           end.
    reflexivity. }
  split; [done|]. split.
  { intros Hnone. rewrite Heq. unfold first_match.
    match goal with
    | |- context [List.find ?f ?l] =>
        destruct (List.find f l) as [r|] eqn:Hfind; [|reflexivity]
    end.
    apply find_some in Hfind as [Hin Hr]. rewrite (Hnone r Hin) in Hr. done. }
  split; [|split].
  - unfold run_fallback_triage.
    repeat match goal with
           | |- context [if ?b then _ else _] => destruct b; [in_list|]
           end.
    in_list.
  - unfold run_fallback_triage.
    repeat match goal with
           | |- context [if ?b then _ else _] => destruct b; [by vm_compute|]
           end.
    by vm_compute.
  - split; [reflexivity|]. split.
    + apply (bool_decide_unpack _). by vm_compute.
    + intros x Hx. simpl in Hx.
      repeat destruct Hx as [<-|Hx]; [in_list..|done].
Qed.

(** ** Chunk ids *)

(** Two strings cut at the first character outside a class are equal piece
    by piece. *)
Lemma app_sep_inj (P : ascii -> Prop) c (a b x y : pystr) :
  Forall P a -> Forall P b -> ~ P c ->
  a ++ c :: x = b ++ c :: y -> a = b /\ x = y.
Proof.
  intros Ha Hb Hc. revert b Hb.
  induction Ha as [|a0 a Ha0 Ha IH]; intros b Hb; destruct Hb as [|b0 b Hb0 Hb];
    simpl; intros Heq.
  - by injection Heq.
  - injection Heq as -> _. done.
  - injection Heq as -> _. done.
  - injection Heq as -> Heq. destruct (IH b Hb Heq) as [-> ->]. done.
Qed.

Lemma string_of_uint_digits d :
  Forall (fun c => is_digit c = true)
    (list_ascii_of_string (NilEmpty.string_of_uint d)).
Proof. induction d; simpl; constructor; done. Qed.

Lemma str_of_nat_digits i : Forall (fun c => is_digit c = true) (str_of_nat i).
Proof. apply string_of_uint_digits. Qed.

Lemma str_of_nat_inj i j : str_of_nat i = str_of_nat j -> i = j.
Proof.
  unfold str_of_nat. intros H.
  apply (f_equal string_of_list_ascii) in H.
  rewrite !string_of_list_ascii_of_string in H.
  apply (f_equal NilEmpty.uint_of_string) in H.
  rewrite !NilEmpty.usu in H. injection H as H.
  apply (f_equal Nat.of_uint) in H.
  by rewrite !DecimalNat.Unsigned.of_to in H.
Qed.

Lemma allowed_no_underscore s :
  s ∈ ALLOWED_SOURCES -> Forall (fun c => c <> "_"%char) s.
Proof.
  unfold ALLOWED_SOURCES. rewrite !elem_of_union, !elem_of_singleton.
  intros [[[->| ->]| ->]| ->]; repeat constructor; done.
Qed.

(** The id determines the parent document's key and the sequence index. *)
Lemma protocol_id_inj g1 g2 i j :
  g_source g1 ∈ ALLOWED_SOURCES -> g_source g2 ∈ ALLOWED_SOURCES ->
  protocol_id g1 i = protocol_id g2 j ->
  document_key g1 = document_key g2 /\ i = j.
Proof.
  intros H1%allowed_no_underscore H2%allowed_no_underscore.
  unfold document_key.
  change (protocol_id g1 i)
    with (g_source g1
          ++ "_"%char :: (py_format (g_id g1) ++ str "_chunk_" ++ str_of_nat i)).
  change (protocol_id g2 j)
    with (g_source g2
          ++ "_"%char :: (py_format (g_id g2) ++ str "_chunk_" ++ str_of_nat j)).
  intros [Hsrc Hrest]%(app_sep_inj (fun c => c <> "_"%char)); [|done..|by intros ?].
  rewrite Hsrc.
  apply (f_equal (@rev ascii)) in Hrest.
  rewrite !rev_app_distr in Hrest.
  change (rev (str "_chunk_")) with ("_"%char :: str "knuhc_") in Hrest.
  rewrite <- !app_assoc, <- !app_comm_cons in Hrest.
  apply (app_sep_inj (fun c => is_digit c = true)) in Hrest as [Hdec Hid].
  - apply (f_equal (@rev ascii)) in Hdec. rewrite !rev_involutive in Hdec.
    apply str_of_nat_inj in Hdec.
    apply app_inv_head in Hid.
    apply (f_equal (@rev ascii)) in Hid. rewrite !rev_involutive in Hid.
    by rewrite Hid.
  - apply Forall_forall. intros c Hc%list_elem_of_In%in_rev%list_elem_of_In.
    by eapply Forall_forall in Hc; [|apply str_of_nat_digits].
  - apply Forall_forall. intros c Hc%list_elem_of_In%in_rev%list_elem_of_In.
    by eapply Forall_forall in Hc; [|apply str_of_nat_digits].
  - done.
Qed.


(** Under the shipped configuration the chunker returns on every text. *)
Lemma chunk_text_total text : is_Some (chunk_text text).
Proof.
  unfold chunk_text, chunk_text_fuel.
  destruct (len text <=? CHUNK_SIZE); [done|].
  rewrite chunk_loop_passes.
  destruct (chunk_passes_total text CHUNK_SIZE CHUNK_OVERLAP) with
    (fuel := length text) (start := 0) as [ps ->].
  - unfold CHUNK_SIZE, CHUNK_OVERLAP. lia.
  - by vm_compute.
  - unfold len. lia.
  - done.
Qed.

Lemma build_protocols_total gs : is_Some (build_protocols gs).
Proof.
  induction gs as [|g gs [rest IH]]; simpl; [done|].
  destruct (chunk_text_total (g_text g)) as [chunks ->]. simpl.
  by rewrite IH.
Qed.









(** An id [None] and the id "None" print alike: such documents share their
    chunk ids although their ids differ. *)
Example none_and_its_name_collide :
  let g1 := {| g_id := PyNone; g_title := PyNone;
               g_source := str "who"; g_text := []; g_url := PyNone |} in
  let g2 := {| g_id := PyStr (str "None"); g_title := PyNone;
               g_source := str "who"; g_text := []; g_url := PyNone |} in
  g_id g1 <> g_id g2
  /\ protocol_id g1 0 = str "who_None_chunk_0"
  /\ protocol_id g2 0 = str "who_None_chunk_0".
Proof. intros g1 g2. repeat split. done. Qed.

Lemma run_fallback_triage_first_match_witness :
  run_fallback_triage (str "Ear ringing, hearing loss")
  = {| specialty := str "Primary Care"; confidence := 50 # 100 |}.
Proof.
  destruct (run_fallback_triage_first_match (str "Ear ringing, hearing loss"))
    as (_ & Hnone & _).
  apply Hnone. intros r Hr. simpl in Hr.
  repeat destruct Hr as [<-|Hr]; [by vm_compute..|done].
Defined.

(** * Further properties of the code *)

(** ** The chunker *)

Lemma slice_infix (s : pystr) lo hi : infix_of (slice s lo hi) s.
Proof.
  unfold slice.
  set (l := Z.to_nat (clamp_index (len s) lo)).
  set (n := Z.to_nat (clamp_index (len s) hi - clamp_index (len s) lo)).
  exists (take l s), (drop n (drop l s)).
  by rewrite take_drop, take_drop.
Qed.

Lemma infix_of_trans (a b c : pystr) : infix_of a b -> infix_of b c -> infix_of a c.
Proof.
  intros (p & q & ->) (p' & q' & ->). exists (p' ++ p), (q ++ q').
  by rewrite <- !app_assoc.
Qed.

Lemma strip_infix s : infix_of (strip s) s.
Proof.
  unfold strip. destruct (rstrip_prefix (lstrip s)) as [k Hk].
  destruct (lstrip_suffix s) as [k' Hk'].
  exists k', k. by rewrite <- Hk.
Qed.

Lemma infix_of_length (a b : pystr) : infix_of a b -> len a <= len b.
Proof. intros (p & q & ->). unfold len. rewrite !length_app. lia. Qed.

(** The unstripped chunk of a pass is cut out of the text and is no longer
    than the window. *)
Lemma window_raw text cs start raw e :
  window text cs start = (raw, e) ->
  infix_of raw text /\ (0 < cs -> len raw <= cs).
Proof.
  unfold window.
  pose proof (slice_infix text start (start + cs)) as Hchunk.
  assert (0 < cs -> len (slice text start (start + cs)) <= cs) as Hlen.
  { intros Hcs. pose proof (length_slice_le text start (start + cs)). lia. }
  destruct (start + cs <? len text); [|by intros [= <- <-]].
  destruct (cs / 2 <? rfind (slice text start (start + cs)) (str ". "));
    [|by intros [= <- <-]].
  intros [= <- <-]. split.
  - eapply infix_of_trans; [apply slice_infix | done].
  - intros Hcs. etrans; [|by apply Hlen].
    apply infix_of_length, slice_infix.
Qed.

Lemma chunk_passes_raw fuel text cs ov start ps :
  chunk_passes fuel text cs ov start = Some ps ->
  Forall (fun p => infix_of (p_raw p) text /\ (0 < cs -> len (p_raw p) <= cs)) ps.
Proof.
  revert start ps. induction fuel as [|fuel IH]; intros start ps; simpl.
  - destruct (start <? len text); [done|]. intros [= <-]. constructor.
  - destruct (start <? len text); [|intros [= <-]; constructor].
    destruct (window text cs start) as [raw e] eqn:W.
    destruct (chunk_passes fuel text cs ov (e - ov)) as [r|] eqn:R; [|done].
    intros [= <-]. constructor; [by eapply window_raw | by eapply IH].
Qed.

(** X1.  Whatever the overlap, every chunk [chunk_text] returns is a run of
    consecutive characters of the text, and with a positive [chunk_size] no
    chunk is longer than [chunk_size]. *)
Theorem chunks_are_bounded_substrings text cs ov fuel chunks :
  chunk_text_fuel fuel text cs ov = Some chunks ->
  Forall (fun c => infix_of c text /\ (0 < cs -> len c <= cs)) chunks.
Proof.
  unfold chunk_text_fuel. destruct (Z.leb_spec (len text) cs) as [Hshort|Hlong].
  - intros [= <-]. constructor; [|constructor].
    split; [by exists [], []; rewrite app_nil_r | done].
  - rewrite chunk_loop_passes.
    destruct (chunk_passes fuel text cs ov 0) as [ps|] eqn:Hps; [|done].
    intros [= <-]. apply chunk_passes_raw in Hps.
    apply Forall_map. eapply Forall_impl; [exact Hps|].
    intros p [Hin Hlen]. simpl. split.
    + eapply infix_of_trans; [apply strip_infix | done].
    + intros Hcs. etrans; [apply infix_of_length, strip_infix | by apply Hlen].
Qed.

Lemma chunks_are_bounded_substrings_witness :
  Forall (fun c => infix_of c (str "abcdef. ghij") /\ (0 < 10 -> len c <= 10))
    [str "abcdef."; str "f. ghij"].
Proof.
  apply (chunks_are_bounded_substrings (str "abcdef. ghij") 10 2 12).
  reflexivity.
Defined.

Lemma slice_same {A} (s : list A) a : slice s a a = [].
Proof. unfold slice. by rewrite Z.sub_diag. Qed.

Lemma slice_whole {A} (s : list A) hi : len s <= hi -> slice s 0 hi = s.
Proof.
  intros H. pose proof (len_nonneg s). rewrite slice_nonneg by lia.
  rewrite !Z.min_r, Z.min_l by lia. change (Z.to_nat 0) with 0%nat.
  rewrite drop_0, Nat.sub_0_r. apply take_ge. unfold len. lia.
Qed.

(** The heads of the windows, each up to where the next window starts,
    follow one another without a gap. *)
Lemma chunk_passes_tile text cs ov :
  0 <= ov < cs -> ov <= cs / 2 + 1 ->
  forall fuel start ps,
    0 <= start ->
    chunk_passes fuel text cs ov start = Some ps ->
    start <= final_start ov start ps
    /\ concat (map (fun p => slice text (p_start p) (p_end p - ov)) ps)
       = slice text start (final_start ov start ps).
Proof.
  intros Hov Hhalf. induction fuel as [|fuel IH]; intros start ps Hs; simpl.
  - destruct (start <? len text); [done|]. intros [= <-].
    unfold final_start. simpl. by rewrite slice_same.
  - destruct (start <? len text).
    + destruct (window text cs start) as [raw e] eqn:W.
      destruct (chunk_passes fuel text cs ov (e - ov)) as [r|] eqn:R; [|done].
      intros [= <-]. apply window_spec in W as [He _]; [|lia].
      destruct (IH (e - ov) r ltac:(lia) R) as [Hmono Htile].
      rewrite final_start_cons. simpl. split; [lia|].
      rewrite Htile. symmetry. apply slice_split; lia.
    + intros [= <-]. unfold final_start. simpl. by rewrite slice_same.
Qed.

(** What a window hands on to the next one is its tail: the rest is a head
    of the unstripped chunk. *)
Lemma chunk_passes_heads text cs ov :
  0 <= ov < cs -> ov <= cs / 2 + 1 ->
  forall fuel start ps,
    0 <= start ->
    chunk_passes fuel text cs ov start = Some ps ->
    Forall (fun p => slice text (p_start p) (p_end p - ov) `prefix_of` p_raw p) ps.
Proof.
  intros Hov Hhalf. induction fuel as [|fuel IH]; intros start ps Hs; simpl.
  - destruct (start <? len text); [done|]. intros [= <-]. constructor.
  - destruct (start <? len text); [|intros [= <-]; constructor].
    destruct (window text cs start) as [raw e] eqn:W.
    destruct (chunk_passes fuel text cs ov (e - ov)) as [r|] eqn:R; [|done].
    intros [= <-]. apply window_spec in W as [He Hraw]; [|lia].
    constructor.
    + simpl. rewrite (Hraw Hs). exists (slice text (e - ov) e).
      apply slice_split; lia.
    + eapply (IH (e - ov)); [lia | done].
Qed.

(** X2.  With [0 <= overlap < chunk_size] and
    [overlap <= chunk_size // 2 + 1] the windows leave no gap: cutting from
    each window the [overlap] characters it hands on to the next one and
    putting the pieces one after the other gives the text back. *)
Theorem windows_cover_text text cs ov :
  0 <= ov < cs -> ov <= cs / 2 + 1 ->
  exists ps,
    chunk_passes (length text) text cs ov 0 = Some ps
    /\ concat (map (fun p => slice text (p_start p) (p_end p - ov)) ps) = text
    /\ Forall (fun p => slice text (p_start p) (p_end p - ov) `prefix_of` p_raw p) ps.
Proof.
  intros Hov Hhalf.
  destruct (chunk_passes_total text cs ov Hov Hhalf (length text) 0) as [ps Hps].
  { unfold len. lia. }
  exists ps. split; [done|]. split.
  - destruct (chunk_passes_tile text cs ov Hov Hhalf _ _ _ (Z.le_refl 0) Hps)
      as [_ ->].
    apply slice_whole. by apply chunk_passes_stop in Hps as [_ ?].
  - by eapply (chunk_passes_heads text cs ov Hov Hhalf _ 0).
Qed.

Lemma windows_cover_text_witness :
  exists ps,
    chunk_passes 12 (str "abcdef. ghij") 10 2 0 = Some ps
    /\ concat (map (fun p => slice (str "abcdef. ghij") (p_start p) (p_end p - 2)) ps)
       = str "abcdef. ghij"
    /\ Forall (fun p => slice (str "abcdef. ghij") (p_start p) (p_end p - 2)
                          `prefix_of` p_raw p) ps.
Proof.
  apply (windows_cover_text (str "abcdef. ghij") 10 2); [lia|].
  change (10 / 2) with 5. lia.
Defined.

Lemma chunk_passes_nonempty fuel text cs ov start ps :
  chunk_passes fuel text cs ov start = Some ps -> start < len text -> ps <> [].
Proof.
  destruct fuel as [|fuel]; simpl.
  - destruct (Z.ltb_spec start (len text)); [done | lia].
  - destruct (Z.ltb_spec start (len text)); [|lia].
    destruct (window text cs start) as [raw e].
    destruct (chunk_passes fuel text cs ov (e - ov)); [|done].
    by intros [= <-].
Qed.

Lemma chunk_passes_past_end fuel text cs ov start ps :
  chunk_passes fuel text cs ov start = Some ps -> len text <= start -> ps = [].
Proof.
  destruct fuel as [|fuel]; simpl;
    (destruct (Z.ltb_spec start (len text)); [lia|]); by intros [= <-].
Qed.

(** Every pass but the last moves the window by at least the length of the
    shortest window less the overlap. *)
Lemma chunk_passes_count text cs ov :
  0 <= ov < cs -> ov <= cs / 2 + 1 ->
  forall fuel start ps,
    chunk_passes fuel text cs ov start = Some ps -> start < len text ->
    (Z.of_nat (length ps) - 1) * (Z.min cs (cs / 2 + 2) - ov) < len text - start.
Proof.
  intros Hov Hhalf. induction fuel as [|fuel IH]; intros start ps; simpl.
  - destruct (Z.ltb_spec start (len text)); [done | lia].
  - destruct (Z.ltb_spec start (len text)); [|lia].
    destruct (window text cs start) as [raw e] eqn:W.
    destruct (chunk_passes fuel text cs ov (e - ov)) as [r|] eqn:R; [|done].
    intros [= <-] _. apply window_spec in W as [He _]; [|lia].
    destruct (Z.lt_ge_cases (e - ov) (len text)) as [Hin|Hout].
    + specialize (IH _ _ R Hin). simpl length. lia.
    + apply chunk_passes_past_end in R as ->; [|lia]. simpl. lia.
Qed.

(** X3.  A text longer than [chunk_size] is cut into at least two chunks,
    and into no more than the step of the window allows: all passes but the
    last advance by at least [min(chunk_size, chunk_size // 2 + 2) - overlap]
    characters (152 under the shipped 400/50). *)
Theorem chunk_count_bounds text cs ov :
  0 <= ov < cs -> ov <= cs / 2 + 1 -> cs < len text ->
  exists chunks,
    chunk_text_fuel (length text) text cs ov = Some chunks
    /\ (2 <= length chunks)%nat
    /\ (Z.of_nat (length chunks) - 1) * (Z.min cs (cs / 2 + 2) - ov) < len text.
Proof.
  intros Hov Hhalf Hlong.
  destruct (chunk_passes_total text cs ov Hov Hhalf (length text) 0) as [ps Hps].
  { unfold len. lia. }
  exists (map (fun p => strip (p_raw p)) ps). split; [|split].
  - unfold chunk_text_fuel. destruct (Z.leb_spec (len text) cs); [lia|].
    by rewrite chunk_loop_passes, Hps.
  - rewrite length_map. destruct ps as [|w rest].
    { by apply chunk_passes_nonempty in Hps; [|lia]. }
    pose proof Hps as Hps'.
    apply chunk_passes_cons in Hps' as (_ & _ & W & fuel' & Hrest).
    apply window_spec in W as [He _]; [|lia].
    apply chunk_passes_nonempty in Hrest; [|lia].
    destruct rest; [done | simpl; lia].
  - rewrite length_map.
    pose proof (chunk_passes_count text cs ov Hov Hhalf _ _ _ Hps). lia.
Qed.

Lemma chunk_count_bounds_witness :
  exists chunks,
    chunk_text_fuel 1000 (repeat "x"%char 1000) CHUNK_SIZE CHUNK_OVERLAP
    = Some chunks
    /\ (2 <= length chunks)%nat
    /\ (Z.of_nat (length chunks) - 1) * 152 < 1000.
Proof.
  apply (chunk_count_bounds (repeat "x"%char 1000) 400 50);
    [lia | by vm_compute | by vm_compute].
Defined.

(** Where [rfind] answers a position, [sub] is there. *)
Lemma rfind_from_found sub s i :
  0 <= i -> 0 <= rfind_from sub s i ->
  i <= rfind_from sub s i
  /\ startswith sub (drop (Z.to_nat (rfind_from sub s i - i)) s) = true.
Proof.
  revert i. induction s as [|c s IH]; intros i Hi; simpl.
  - destruct sub; simpl; [|lia]. intros _. split; [lia | done].
  - destruct (Z.leb_spec 0 (rfind_from sub s (i + 1))) as [Hr|Hr].
    + intros _. destruct (IH (i + 1) ltac:(lia) Hr) as [Hle Hsw]. split; [lia|].
      replace (Z.to_nat (rfind_from sub s (i + 1) - i))
        with (S (Z.to_nat (rfind_from sub s (i + 1) - (i + 1)))) by lia.
      done.
    + destruct (startswith sub (c :: s)) eqn:E; [|lia].
      intros _. by rewrite Z.sub_diag.
Qed.

Lemma startswith_period_space (s : list ascii) :
  startswith (str ". ") s = true ->
  s !! 0%nat = Some "."%char /\ s !! 1%nat = Some " "%char.
Proof.
  destruct s as [|a [|b s]].
  - done.
  - change (startswith (str ". ") [a]) with (Ascii.eqb "." a && false).
    by rewrite andb_false_r.
  - change (startswith (str ". ") (a :: b :: s))
      with (Ascii.eqb "." a && (Ascii.eqb " " b && true)).
    intros [Ha [Hb _]%andb_prop]%andb_prop.
    apply Ascii.eqb_eq in Ha, Hb. by subst.
Qed.

(** X4.  A window that was shortened ends right after a period that a
    space follows in the text, lies wholly inside the text, and keeps more
    than half of [chunk_size]: the chunk is at least [chunk_size // 2 + 2]
    characters long before it is stripped. *)
Theorem snapped_window_ends_sentence text cs start raw e :
  0 < cs -> 0 <= start ->
  window text cs start = (raw, e) -> e <> start + cs ->
  e < start + cs /\ e < len text
  /\ len raw = e - start /\ cs / 2 + 2 <= len raw
  /\ last raw = Some "."%char
  /\ text !! Z.to_nat e = Some " "%char.
Proof.
  intros Hcs Hs. unfold window.
  destruct (Z.ltb_spec (start + cs) (len text)) as [Hin|Hout];
    [|by intros [= <- <-]].
  set (chunk := slice text start (start + cs)).
  destruct (Z.ltb_spec (cs / 2) (rfind chunk (str ". "))) as [Hsnap|Hno];
    [|by intros [= <- <-]].
  intros [= <- <-] _.
  assert (0 <= cs / 2) by (apply Z.div_pos; lia).
  assert (len chunk = cs) as Hlen.
  { subst chunk. rewrite length_slice_inside; lia. }
  destruct (rfind_range chunk (str ". ")) as [?|[Hr Hfit]]; [lia|].
  change (len (str ". ")) with 2 in Hfit.
  set (r := rfind chunk (str ". ")) in *.
  destruct (rfind_from_found (str ". ") chunk 0 ltac:(lia) Hr) as [_ Hsw].
  fold (rfind chunk (str ". ")) in Hsw. fold r in Hsw. rewrite Z.sub_0_r in Hsw.
  apply startswith_period_space in Hsw as [Hdot Hspace].
  rewrite lookup_drop, Nat.add_0_r in Hdot. rewrite lookup_drop in Hspace.
  assert (slice_to chunk (r + 1) = take (S (Z.to_nat r)) chunk) as Hraw.
  { unfold slice_to. rewrite slice_nonneg by lia.
    rewrite !Z.min_l by lia. change (Z.to_nat 0) with 0%nat.
    rewrite drop_0, Nat.sub_0_r. f_equal. lia. }
  change ["."%char; " "%char] with (str ". "). fold r.
  split; [lia|]. split; [lia|]. rewrite Hraw. split; [|split; [|split]].
  - unfold len in *. rewrite length_take. lia.
  - unfold len in *. rewrite length_take. lia.
  - rewrite (take_S_r _ _ _ Hdot). apply last_snoc.
  - subst chunk. rewrite slice_nonneg in Hspace by lia.
    rewrite lookup_take_lt in Hspace by lia.
    rewrite lookup_drop in Hspace. rewrite <- Hspace. f_equal. lia.
Qed.

Lemma snapped_window_ends_sentence_witness :
  7 < 0 + 10 /\ 7 < len (str "abcdef. ghij")
  /\ len (str "abcdef.") = 7 - 0 /\ 10 / 2 + 2 <= len (str "abcdef.")
  /\ last (str "abcdef.") = Some "."%char
  /\ str "abcdef. ghij" !! Z.to_nat 7 = Some " "%char.
Proof.
  apply (snapped_window_ends_sentence (str "abcdef. ghij") 10 0 (str "abcdef.") 7);
    [lia | lia | reflexivity | lia].
Defined.

(** ** The loader *)

Lemma load_guidelines_app before after :
  load_guidelines (before ++ after)
  = (gs1 ← load_guidelines before; gs2 ← load_guidelines after; Ok (gs1 ++ gs2)).
Proof.
  induction before as [|r before IH]; simpl.
  - by destruct (load_guidelines after).
  - destruct (filter_row r) as [g|]; simpl; [|done]. rewrite IH.
    destruct (load_guidelines before) as [gs1|]; simpl; [|done].
    destruct (load_guidelines after) as [gs2|]; simpl; [|done].
    by destruct g.
Qed.

(** X5.  One row can stop the whole load.  A row raises exactly when its
    source is [None] (an attribute error), or when its source is on the
    allow-list, its clean text is missing, [None] or empty, and its raw text
    is [None] (a type error); and [load_guidelines] raises exactly the
    exception of the first row that raises, whatever the rows after it. *)
Theorem load_guidelines_aborts dataset e :
  (forall r e',
     filter_row r = Raise e' <->
     (r !! "source"%string = Some PyNone /\ e' = AttributeError)
     \/ (exists tag,
           r !! "source"%string = Some (PyStr tag)
           /\ lower tag ∈ ALLOWED_SOURCES
           /\ truthy (default PyNone (r !! "clean_text"%string)) = false
           /\ r !! "raw_text"%string = Some PyNone
           /\ e' = TypeError))
  /\ (load_guidelines dataset = Raise e <->
      exists before r after,
        dataset = before ++ r :: after
        /\ Forall (fun r' => exists o, filter_row r' = Ok o) before
        /\ filter_row r = Raise e).
Proof.
  split.
  - intros r e'. unfold filter_row. split.
    + destruct (r !! "source"%string) as [[|tag]|]; simpl.
      * intros [= <-]. by left.
      * case_bool_decide as Hin; [|done]. unfold py_or.
        destruct (truthy (default PyNone (r !! "clean_text"%string))) eqn:Ht.
        { destruct (r !! "clean_text"%string) as [[|[|c s]]|]; simpl in *;
            try done.
          by destruct (100 <? _). }
        destruct (r !! "raw_text"%string) as [[|raw]|]; simpl.
        -- intros [= <-]. right. by exists tag.
        -- by destruct (100 <? len raw).
        -- done.
      * case_bool_decide as Hin; [|done]. by apply empty_not_allowed in Hin.
    + intros [[-> ->] | (tag & -> & Hin & Ht & -> & ->)]; simpl; [done|].
      rewrite bool_decide_eq_true_2 by done. unfold py_or. by rewrite Ht.
  - split.
    + induction dataset as [|r dataset IH]; simpl; [done|].
      destruct (filter_row r) as [g|e'] eqn:Hr; simpl.
      * destruct (load_guidelines dataset) as [gs|e''] eqn:Hl; simpl; [done|].
        intros [= ->].
        destruct (IH eq_refl) as (before & r' & after & -> & Hok & Hraise).
        exists (r :: before), r', after. split; [done|]. split; [|done].
        constructor; [by exists g | done].
      * intros [= ->]. exists [], r, dataset. split; [done|]. split; [constructor|done].
    + intros (before & r & after & -> & Hok & Hraise).
      induction Hok as [|r' before [o Ho] Hok IH]; simpl.
      * by rewrite Hraise.
      * rewrite Ho. simpl. by rewrite IH.
Qed.

Lemma load_guidelines_aborts_witness :
  let good : row := {[ "source"%string := PyStr (str "blog") ]} in
  let bad : row := {[ "source"%string := PyNone ]} in
  load_guidelines [good; bad; good] = Raise AttributeError.
Proof.
  intros good bad.
  destruct (load_guidelines_aborts [good; bad; good] AttributeError) as [Hrow Hload].
  apply Hload. exists [good], bad, [good]. split; [done|]. split.
  - constructor; [|constructor]. by exists None.
  - apply Hrow. left. done.
Defined.

Lemma filter_row_admitted r g :
  filter_row r = Ok (Some g) ->
  g_source g ∈ ALLOWED_SOURCES /\ 100 < len (g_text g).
Proof.
  intros Hr. split; [by eapply filter_row_source|]. revert Hr.
  unfold filter_row.
  destruct (py_lower _) as [source|]; simpl; [|done].
  case_bool_decide; [|done].
  destruct (py_or _ _) as [|text]; [done|].
  destruct (Z.ltb_spec 100 (len text)); [|done]. by intros [= <-].
Qed.

(** X6.  What the loader returns is made of admitted rows only, in the
    order of the corpus: every guideline has a source tag from the
    allow-list and a text of more than 100 characters, there are no more
    guidelines than rows, and loading two corpora one after the other gives
    the guidelines of the first followed by those of the second. *)
Theorem load_guidelines_admitted dataset gs :
  load_guidelines dataset = Ok gs ->
  Forall (fun g => g_source g ∈ ALLOWED_SOURCES /\ 100 < len (g_text g)) gs
  /\ (length gs <= length dataset)%nat
  /\ (forall before after,
        dataset = before ++ after ->
        exists gs1 gs2,
          load_guidelines before = Ok gs1 /\ load_guidelines after = Ok gs2
          /\ gs = gs1 ++ gs2).
Proof.
  intros Hload. split; [|split].
  - revert gs Hload. induction dataset as [|r dataset IH]; intros gs; simpl.
    + intros [= <-]. constructor.
    + destruct (filter_row r) as [g|] eqn:Hr; simpl; [|done].
      destruct (load_guidelines dataset) as [filtered|]; simpl; [|done].
      intros [= <-]. destruct g as [g|]; [|by apply IH].
      constructor; [by eapply filter_row_admitted | by apply IH].
  - revert gs Hload. induction dataset as [|r dataset IH]; intros gs; simpl.
    + by intros [= <-].
    + destruct (filter_row r) as [g|] eqn:Hr; simpl; [|done].
      destruct (load_guidelines dataset) as [filtered|]; simpl; [|done].
      intros [= <-]. specialize (IH filtered eq_refl).
      destruct g; simpl; lia.
  - intros before after ->. rewrite load_guidelines_app in Hload.
    destruct (load_guidelines before) as [gs1|]; simpl in Hload; [|done].
    destruct (load_guidelines after) as [gs2|]; simpl in Hload; [|done].
    injection Hload as <-. by exists gs1, gs2.
Qed.

Lemma load_guidelines_admitted_witness :
  let text := repeat "x"%char 101 in
  let r : row := {[ "source"%string := PyStr (str "NICE");
                    "clean_text"%string := PyStr text ]} in
  let b : row := {[ "source"%string := PyStr (str "blog") ]} in
  let g := {| g_id := PyStr []; g_title := PyStr (str "Untitled");
              g_source := str "nice"; g_text := text; g_url := PyStr [] |} in
  Forall (fun g => g_source g ∈ ALLOWED_SOURCES /\ 100 < len (g_text g)) [g]
  /\ (length [g] <= length [b; r])%nat.
Proof.
  intros text r b g.
  destruct (load_guidelines_admitted [b; r] [g]) as (H1 & H2 & _);
    [by vm_compute | done].
Defined.

(** ** The chunking loop of [main] *)

Lemma build_chunks_protocols gs :
  build_chunks gs = (fun ps => (ps, map p_text ps)) <$> build_protocols gs.
Proof.
  induction gs as [|g gs IH]; simpl; [done|].
  destruct (chunk_text (g_text g)) as [chunks|]; simpl; [|done].
  rewrite IH. destruct (build_protocols gs) as [rest|]; simpl; [|done].
  do 2 f_equal. rewrite map_app. f_equal.
  unfold protocols_of.
  change (map p_text (imap ?f chunks)) with (p_text <$> imap f chunks).
  rewrite fmap_imap, (imap_ext _ (const id)) by done.
  rewrite imap_const. symmetry. apply list_fmap_id.
Qed.

(** Under the shipped configuration every text gives at least one chunk,
    each cut out of the text and at most [CHUNK_SIZE] characters long. *)
Lemma chunk_text_chunks text chunks :
  chunk_text text = Some chunks ->
  chunks <> []
  /\ Forall (fun c => infix_of c text /\ len c <= CHUNK_SIZE) chunks.
Proof.
  unfold chunk_text, chunk_text_fuel.
  destruct (Z.leb_spec (len text) CHUNK_SIZE) as [Hshort|Hlong].
  - intros [= <-]. split; [done|]. constructor; [|constructor].
    split; [by exists [], []; rewrite app_nil_r | done].
  - rewrite chunk_loop_passes.
    destruct (chunk_passes _ text _ _ 0) as [ps|] eqn:Hps; [|done].
    intros [= <-]. split.
    + apply chunk_passes_nonempty in Hps; [|unfold CHUNK_SIZE in *; lia].
      by destruct ps.
    + apply chunk_passes_raw in Hps. apply Forall_map.
      eapply Forall_impl; [exact Hps|]. intros p [Hin Hlen]. simpl. split.
      * eapply infix_of_trans; [apply strip_infix | done].
      * etrans; [apply infix_of_length, strip_infix | by apply Hlen].
Qed.




(** ** Batched encoding *)

(** The number of batches for a positive batch size. *)
Lemma range_from_zero_pos stop step :
  0 <= stop -> 0 < step ->
  range_from_zero stop step
  = Returned (map (fun k => Z.of_nat k * step)
                (seq 0 (Z.to_nat ((stop + step - 1) / step)))).
Proof.
  intros Hstop Hstep. unfold range_from_zero.
  destruct (Z.eqb_spec step 0); [lia|].
  destruct (Z.ltb_spec 0 step); [|lia].
  do 4 f_equal. destruct (Z.ltb_spec 0 stop).
  - replace (stop + step - 1) with (stop - 1 + 1 * step) by lia.
    by rewrite Z.div_add by lia.
  - assert (stop = 0) as -> by lia. rewrite Z.div_small; lia.
Qed.

Lemma concat_slices {A} (s : list A) step m :
  0 < step ->
  concat (map (fun i => slice s i (i + step))
            (map (fun k => Z.of_nat k * step) (seq 0 m)))
  = slice s 0 (Z.of_nat m * step).
Proof.
  intros Hstep. induction m as [|m IH].
  - simpl. by rewrite slice_same.
  - rewrite seq_S, !map_app, concat_app, IH. simpl. rewrite app_nil_r.
    symmetry. replace (Z.of_nat (S m) * step) with (Z.of_nat m * step + step) by lia.
    apply slice_split; lia.
Qed.

(** X8.  For a positive batch size the loop of [generate_embeddings] cuts
    the texts into consecutive batches that put together give the texts
    back, in order; no batch is empty, none has more than [batch_size]
    texts, and there are [ceil(len(texts) / batch_size)] of them. *)
Theorem batches_partition texts bs :
  0 < bs ->
  concat (batches texts bs) = texts
  /\ Forall (fun b => 0 < len b <= bs) (batches texts bs)
  /\ len (batches texts bs) = (len texts + bs - 1) / bs.
Proof.
  intros Hbs. pose proof (len_nonneg texts) as Hn. unfold batches.
  rewrite range_from_zero_pos by lia.
  set (m := (len texts + bs - 1) / bs).
  assert (0 <= m) as Hm by (apply Z.div_pos; lia).
  assert (len texts <= m * bs) as Hup.
  { pose proof (Z.mul_succ_div_gt (len texts + bs - 1) bs Hbs). fold m in H. lia. }
  assert (m * bs <= len texts + bs - 1) as Hlow.
  { pose proof (Z.mul_div_le (len texts + bs - 1) bs Hbs). fold m in H. lia. }
  split; [|split].
  - rewrite concat_slices by lia. apply slice_whole. lia.
  - apply Forall_map, Forall_map, Forall_forall.
    intros k [_ Hk]%elem_of_seq. simpl in Hk.
    rewrite length_slice. unfold clamp_index.
    assert (Z.of_nat k * bs + bs <= m * bs) by nia.
    destruct (Z.ltb_spec (Z.of_nat k * bs + bs) 0),
      (Z.ltb_spec (Z.of_nat k * bs) 0); nia.
  - unfold len. rewrite !length_map, length_seq. lia.
Qed.

Lemma batches_partition_witness :
  concat (batches [str "a"; str "b"; str "c"] 2) = [str "a"; str "b"; str "c"]
  /\ Forall (fun b => 0 < len b <= 2) (batches [str "a"; str "b"; str "c"] 2)
  /\ len (batches [str "a"; str "b"; str "c"] 2)
     = (len [str "a"; str "b"; str "c"] + 2 - 1) / 2.
Proof. apply (batches_partition [str "a"; str "b"; str "c"] 2). lia. Defined.

Lemma vstack_uniform arrays D :
  arrays <> [] -> Forall (fun a => nd_cols a = D) arrays ->
  vstack arrays
  = Returned {| nd_cols := D; nd_rows := concat (map nd_rows arrays) |}.
Proof.
  destruct arrays as [|a rest]; [done|]. intros _ Hall.
  apply Forall_cons in Hall as [Ha Hrest]. unfold vstack.
  rewrite (proj2 (forallb_forall _ rest)); [by rewrite Ha|].
  intros b Hb%list_elem_of_In. eapply Forall_forall in Hrest; [|done].
  apply Nat.eqb_eq. congruence.
Qed.

Section EncoderProperties.
Variable encode : list pystr -> ndarray.
Variable normalise : ndarray -> ndarray.

(** X9.  Without texts, or with a batch size that is not positive,
    [generate_embeddings] raises a [ValueError]: from [range] when the batch
    size is zero, otherwise from [np.vstack], which is given no array. *)
Theorem generate_embeddings_nothing_to_stack texts bs :
  texts = [] \/ bs <= 0 ->
  generate_embeddings encode normalise texts bs = Failed ValueError.
Proof.
  intros Hcase. unfold generate_embeddings, range_from_zero.
  destruct (Z.eqb_spec bs 0) as [->|Hne]; [done|].
  pose proof (len_nonneg texts).
  destruct (Z.ltb_spec 0 bs) as [Hpos|Hneg].
  - destruct Hcase as [->|?]; [|lia]. done.
  - destruct (Z.ltb_spec (len texts) 0); [lia|]. done.
Qed.

Variable embed : pystr -> list spec_float.
Variable D : nat.
Hypothesis embed_per_text :
  forall batch,
    normalise (encode batch) = {| nd_cols := D; nd_rows := map embed batch |}.

(** X10.  Batching does not show in the result.  When the normalised
    features of a batch are, row by row, a function [embed] of the text
    alone, with [D] columns, [generate_embeddings] returns for any texts,
    not none, and any positive batch size the array whose rows are [embed]
    of the texts, one per text and in their order. *)
Theorem generate_embeddings_per_text texts bs :
  texts <> [] -> 0 < bs ->
  generate_embeddings encode normalise texts bs
  = Returned {| nd_cols := D; nd_rows := map embed texts |}.
Proof using embed_per_text.
  intros Hne Hbs. destruct (batches_partition texts bs Hbs) as (Hcat & _ & Hcount).
  unfold batches in Hcat, Hcount. unfold generate_embeddings.
  destruct (range_from_zero (len texts) bs) as [starts|] eqn:Hr; simpl.
  - rewrite (vstack_uniform _ D).
    + do 2 f_equal. rewrite <- Hcat at 2.
      rewrite concat_map, !map_map. f_equal. apply map_ext. intros i.
      unfold embed_batch. by rewrite embed_per_text.
    + intros Hnil%(f_equal length). rewrite !length_map in Hnil.
      unfold len in Hcount. rewrite length_map, Hnil in Hcount.
      assert (0 < len texts) by (unfold len; destruct texts; [done | simpl; lia]).
      assert (1 <= (len texts + bs - 1) / bs); [|unfold len in *; simpl in *; lia].
      apply Z.div_le_lower_bound; lia.
    + apply Forall_map, Forall_forall. intros i _.
      unfold embed_batch. by rewrite embed_per_text.
  - rewrite range_from_zero_pos in Hr by (pose proof (len_nonneg texts); lia).
    done.
Qed.

End EncoderProperties.

Lemma generate_embeddings_nothing_to_stack_witness :
  generate_embeddings (fun _ => {| nd_cols := 0; nd_rows := [] |}) (fun a => a)
    [str "a"] (-4)
  = Failed ValueError.
Proof. apply generate_embeddings_nothing_to_stack. right. lia. Defined.

Lemma generate_embeddings_per_text_witness :
  let one := S754_finite false 8388608 (-23) in
  let encode := fun batch : list pystr =>
    {| nd_cols := 1; nd_rows := map (fun _ => [one]) batch |} in
  generate_embeddings encode (fun a => a) [str "a"; str "b"; str "c"] 2
  = Returned {| nd_cols := 1;
                nd_rows := map (fun _ => [one]) [str "a"; str "b"; str "c"] |}.
Proof.
  intros one encode.
  apply (generate_embeddings_per_text encode (fun a => a) (fun _ => [one]) 1);
    [done | done | lia].
Defined.

(** ** From the corpus to the collection *)





Lemma zip_with_entry (f : protocol -> list spec_float) ps :
  zip_with Build_entry ps (map (fun p => f p) ps)
  = map (fun p => {| e_protocol := p; e_embedding := f p |}) ps.
Proof. induction ps as [|p ps IH]; simpl; [done|]. by rewrite IH. Qed.



Section MainProperties.
Variable encode : list pystr -> ndarray.
Variable normalise : ndarray -> ndarray.
Variable embed : pystr -> list spec_float.
Variable D : nat.
Hypothesis embed_per_text :
  forall batch,
    normalise (encode batch) = {| nd_cols := D; nd_rows := map embed batch |}.

(** X12.  When the normalised features of a batch are, row by row, a
    function [embed] of the text alone, and the corpus loads with at least
    one admitted row, [main] hands to [json.dump] one entry for each chunk,
    in order: the record of the chunk with [embed] of the text of that very
    chunk.  No index error is raised and no row is left over. *)
Theorem main_collection_per_text dataset gs :
  load_guidelines dataset = Ok gs -> gs <> [] ->
  exists ps,
    build_protocols gs = Some ps /\ ps <> []
    /\ main_collection encode normalise dataset
       = Returned (map (fun p => {| e_protocol := p;
                                    e_embedding := embed (p_text p) |}) ps).
Proof using embed_per_text.
  intros Hload Hne. destruct (build_protocols_total gs) as [ps Hps].
  assert (ps <> []) as Hps_ne.
  { destruct gs as [|g gs]; [done|]. simpl in Hps.
    destruct (chunk_text (g_text g)) as [chunks|] eqn:Hc; simpl in Hps; [|done].
    destruct (build_protocols gs) as [rest|]; simpl in Hps; [|done].
    injection Hps as <-. apply chunk_text_chunks in Hc as [Hc _].
    destruct chunks; [done|]. unfold protocols_of. simpl. done. }
  exists ps. split; [done|]. split; [done|].
  unfold main_collection. rewrite Hload, build_chunks_protocols, Hps. simpl.
  rewrite (generate_embeddings_per_text encode normalise embed D embed_per_text);
    [|by destruct ps | lia].
  simpl. unfold write_collection.
  rewrite attach_embeddings_ok by (rewrite !length_map; simpl; lia).
  by rewrite drop_0, map_map, (zip_with_entry (fun p => embed (p_text p))).
Qed.

End MainProperties.

Lemma main_collection_per_text_witness :
  let one := S754_finite false 8388608 (-23) in
  let encode := fun batch : list pystr =>
    {| nd_cols := 1; nd_rows := map (fun _ => [one]) batch |} in
  let text := repeat "x"%char 500 in
  let r : row := {[ "source"%string := PyStr (str "icrc");
                    "clean_text"%string := PyStr text ]} in
  let g := {| g_id := PyStr []; g_title := PyStr (str "Untitled");
              g_source := str "icrc"; g_text := text; g_url := PyStr [] |} in
  exists ps,
    build_protocols [g] = Some ps /\ ps <> []
    /\ main_collection encode (fun a => a) [r]
       = Returned (map (fun p => {| e_protocol := p; e_embedding := [one] |}) ps).
Proof.
  intros one encode text r g.
  apply (main_collection_per_text encode (fun a => a) (fun _ => [one]) 1);
    [done | by vm_compute | done].
Defined.

(** ** The evaluation script *)

Lemma lower_char_idempotent c : lower_char (lower_char c) = lower_char c.
Proof. destruct c as [[] [] [] [] [] [] [] []]; reflexivity. Qed.

Lemma lower_idempotent s : lower (lower s) = lower s.
Proof.
  unfold lower. rewrite map_map. apply map_ext. intros c.
  apply lower_char_idempotent.
Qed.

(** X13.  Neither keyword classifier looks at the case of its input: the
    fallback triage and the label clean-up of the language model answer on a
    text what they answer on the lowered text. *)
Theorem keyword_matching_ignores_case text :
  run_fallback_triage (lower text) = run_fallback_triage text
  /\ _find_specialty (lower text) = _find_specialty text
  /\ (forall text', lower text' = lower text ->
        run_fallback_triage text' = run_fallback_triage text
        /\ _find_specialty text' = _find_specialty text).
Proof.
  split; [|split].
  - unfold run_fallback_triage. by rewrite lower_idempotent.
  - unfold _find_specialty. by rewrite lower_idempotent.
  - intros text' Heq. unfold run_fallback_triage, _find_specialty.
    by rewrite Heq.
Qed.

Lemma keyword_matching_ignores_case_witness :
  run_fallback_triage (str "CHEST PAIN") = run_fallback_triage (str "chest pain")
  /\ _find_specialty (str "CHEST PAIN") = _find_specialty (str "chest pain").
Proof.
  destruct (keyword_matching_ignores_case (str "chest pain")) as (_ & _ & H).
  apply (H (str "CHEST PAIN")). reflexivity.
Defined.

(** X14.  Whatever the language model wrote, [_find_specialty] answers one
    of the fifteen specialties.  A specialty named in the text wins over
    every alias: when some name occurs in the lowered text, the answer is a
    specialty whose lowered name occurs there, the first such in the order
    of [SPECIALTIES]. *)
Theorem find_specialty_in_vocabulary text :
  In (_find_specialty text) SPECIALTIES
  /\ (forall s, In s SPECIALTIES -> contains (lower s) (lower text) = true ->
        List.find (fun s' => contains (lower s') (lower text)) SPECIALTIES
        = Some (_find_specialty text)
        /\ contains (lower (_find_specialty text)) (lower text) = true).
Proof.
  unfold _find_specialty.
  destruct (List.find (fun s' => contains (lower s') (lower text)) SPECIALTIES)
    as [s0|] eqn:Hfind.
  - apply find_some in Hfind as [Hin Hc]. split; [done|]. by intros s _ _.
  - split.
    + destruct (List.find (fun a => contains (fst a) (lower text)) ALIASES)
        as [a|] eqn:Ha.
      * apply find_some in Ha as [Hin _]. simpl in Hin.
        repeat destruct Hin as [<-|Hin]; [in_list..|done].
      * in_list.
    + intros s Hs Hc. by rewrite (find_none _ _ Hfind s Hs) in Hc.
Qed.

Lemma find_specialty_in_vocabulary_witness :
  List.find (fun s' => contains (lower s') (lower (str "Cardiology or skin clinic")))
    SPECIALTIES
  = Some (_find_specialty (str "Cardiology or skin clinic"))
  /\ contains (lower (_find_specialty (str "Cardiology or skin clinic")))
       (lower (str "Cardiology or skin clinic")) = true.
Proof.
  destruct (find_specialty_in_vocabulary (str "Cardiology or skin clinic"))
    as [_ H].
  apply (H (str "Cardiology")); [in_list | reflexivity].
Defined.

(** X15.  [_find_specialty] gives every specialty name back: on a text that
    is, up to case, the name of one of the fifteen specialties, it answers
    that specialty. *)
Theorem find_specialty_fixes_names s text :
  In s SPECIALTIES -> lower text = lower s -> _find_specialty text = s.
Proof.
  intros Hs Heq. unfold _find_specialty. rewrite Heq. simpl in Hs.
  repeat destruct Hs as [<-|Hs]; [by vm_compute..|done].
Qed.

Lemma find_specialty_fixes_names_witness :
  _find_specialty (str "WOMEN'S HEALTH") = str "Women's Health".
Proof.
  apply (find_specialty_fixes_names (str "Women's Health") (str "WOMEN'S HEALTH"));
    [in_list | reflexivity].
Defined.

Lemma name_mapping_values name v :
  name_mapping !! name = Some v ->
  In v SPECIALTIES /\ name_mapping !! v = None.
Proof.
  intros Hv.
  assert (map_Forall (fun _ v => v ∈ SPECIALTIES /\ name_mapping !! v = None)
            name_mapping) as Hall.
  { apply (bool_decide_unpack _). by vm_compute. }
  destruct (Hall name v Hv) as [Hin Hnone]. split; [|done].
  by apply list_elem_of_In.
Qed.

(** X16.  [_map_specialty] lands in the vocabulary of the evaluation and
    stays there: a name it knows is sent to one of the fifteen specialties,
    every one of the fifteen is left as it is, and mapping twice is mapping
    once. *)
Theorem map_specialty_idempotent name :
  _map_specialty (_map_specialty name) = _map_specialty name
  /\ (is_Some (name_mapping !! name) -> In (_map_specialty name) SPECIALTIES)
  /\ (In name SPECIALTIES -> _map_specialty name = name).
Proof.
  unfold _map_specialty.
  destruct (name_mapping !! name) as [v|] eqn:Hv; simpl.
  - destruct (name_mapping_values name v Hv) as [Hin Hnone].
    split; [by rewrite Hnone|]. split; [done|].
    intros Hname. simpl in Hname.
    repeat destruct Hname as [<-|Hname]; [by vm_compute in Hv..|done].
  - rewrite Hv. split; [done|]. split; [by intros [? ?] | done].
Qed.

Lemma map_specialty_idempotent_witness :
  In (_map_specialty (str "Orthopedics")) SPECIALTIES
  /\ _map_specialty (str "Urology") = str "Urology".
Proof.
  destruct (map_specialty_idempotent (str "Orthopedics")) as (_ & H1 & _).
  destruct (map_specialty_idempotent (str "Urology")) as (_ & _ & H2).
  split; [apply H1; eexists; by vm_compute | apply H2; in_list].
Defined.

(** X17.  The specialty [SetFitClassifier.classify] reports is one of the
    fifteen whenever every label of the table is one of them or a name the
    mapping knows; a class the table has no label for is reported as
    "Primary Care". *)
Theorem setfit_specialty_in_vocabulary (labels : gmap pystr pystr) predicted_class :
  (forall k v, labels !! k = Some v ->
     In v SPECIALTIES \/ is_Some (name_mapping !! v)) ->
  In (setfit_specialty labels predicted_class) SPECIALTIES
  /\ (labels !! str_of_int predicted_class = None ->
      setfit_specialty labels predicted_class = str "Primary Care").
Proof.
  intros Hlabels. unfold setfit_specialty.
  destruct (labels !! str_of_int predicted_class) as [v|] eqn:Hv; simpl.
  - split; [|done]. destruct (Hlabels _ _ Hv) as [Hin|[w Hw]].
    + unfold _map_specialty.
      destruct (name_mapping !! v) as [w|] eqn:Hw; simpl; [|done].
      by apply name_mapping_values in Hw as [? _].
    + unfold _map_specialty. rewrite Hw. simpl.
      by apply name_mapping_values in Hw as [? _].
  - split; [|done]. in_list.
Qed.

Lemma setfit_specialty_in_vocabulary_witness :
  let labels : gmap pystr pystr :=
    {[ str "0" := str "Audiology"; str "1" := str "Urology" ]} in
  In (setfit_specialty labels 0) SPECIALTIES
  /\ (labels !! str_of_int 7 = None ->
      setfit_specialty labels 7 = str "Primary Care").
Proof.
  intros labels.
  assert (forall k v, labels !! k = Some v ->
            In v SPECIALTIES \/ is_Some (name_mapping !! v)) as Hlabels.
  { intros k v. unfold labels.
    intros [[_ <-]|[_ [_ <-]%lookup_singleton_Some]]%lookup_insert_Some.
    - right. eexists. by vm_compute.
    - left. in_list. }
  split.
  - apply (setfit_specialty_in_vocabulary labels 0 Hlabels).
  - apply (setfit_specialty_in_vocabulary labels 7 Hlabels).
Defined.

Lemma run_fallback_triage_range symptom :
  In (specialty (run_fallback_triage symptom)) FALLBACK_SPECIALTIES.
Proof.
  unfold run_fallback_triage.
  repeat match goal with
         | |- context [if ?b then _ else _] => destruct b; [in_list|]
         end.
  in_list.
Qed.

(** X18.  The keyword triage can never be right on a case that expects
    Oncology, Pain Management, Rheumatology, Sports Medicine or Vascular
    Medicine, whatever the symptom says.  In the evaluation every such row
    is marked wrong; they are 11 of the 45 rows, and the keyword triage
    scores 23. *)
Theorem fallback_never_answers symptom_text expected_label :
  In expected_label UNANSWERED_SPECIALTIES ->
  specialty (run_fallback_triage symptom_text) <> expected_label
  /\ Forall (fun r => In (r_expected r) UNANSWERED_SPECIALTIES ->
                      r_correct r = false)
       (evaluate run_fallback_triage)
  /\ length (filter (fun r => r_expected r ∈ UNANSWERED_SPECIALTIES)
               (evaluate run_fallback_triage)) = 11%nat
  /\ length (evaluate run_fallback_triage) = 45%nat
  /\ correct_sum (evaluate run_fallback_triage) = 23%nat.
Proof.
  assert (forall t e, In e UNANSWERED_SPECIALTIES ->
            specialty (run_fallback_triage t) <> e) as Hnever.
  { intros t e He Heq.
    pose proof (run_fallback_triage_range t) as Hin.
    rewrite Heq in Hin. simpl in He, Hin.
    repeat destruct He as [<-|He]; try done;
      repeat destruct Hin as [Hin|Hin]; done. }
  intros He. split; [by apply Hnever|]. split; [|split; [|split]].
  - unfold evaluate. apply Forall_map, Forall_forall. intros tc _. simpl.
    intros Hexp. apply bool_decide_eq_false. by apply Hnever.
  - by vm_compute.
  - reflexivity.
  - by vm_compute.
Qed.

Lemma fallback_never_answers_witness :
  specialty (run_fallback_triage (str "lump in breast, family history of cancer"))
  <> str "Oncology".
Proof.
  apply (fallback_never_answers
           (str "lump in breast, family history of cancer") (str "Oncology")).
  in_list.
Defined.

(** ** More on the chunker and on chunk ids *)

(** [rfind] does not pass over an occurrence: every position at which [sub]
    starts is at or before its answer. *)
Lemma rfind_from_last sub s i (k : nat) :
  0 <= i -> (k <= length s)%nat -> startswith sub (drop k s) = true ->
  i + Z.of_nat k <= rfind_from sub s i.
Proof.
  revert i k. induction s as [|c s IH]; intros i k Hi Hk Hsw.
  - simpl in Hk. assert (k = 0%nat) as -> by lia. simpl in *.
    rewrite Hsw. lia.
  - cbn [rfind_from]. destruct k as [|k].
    + simpl in Hsw. rewrite Hsw.
      destruct (rfind_from_range sub s (i + 1) ltac:(lia)) as [->|[Hr _]].
      * simpl. lia.
      * destruct (Z.leb_spec 0 (rfind_from sub s (i + 1))); lia.
    + simpl in Hsw, Hk. specialize (IH (i + 1) k ltac:(lia) ltac:(lia) Hsw).
      destruct (Z.leb_spec 0 (rfind_from sub s (i + 1))); lia.
Qed.

Lemma period_space_startswith (s : list ascii) (k : nat) :
  s !! k = Some "."%char -> s !! S k = Some " "%char ->
  startswith (str ". ") (drop k s) = true.
Proof.
  intros Hdot Hspace.
  rewrite (drop_S _ _ _ Hdot), (drop_S _ _ _ Hspace). reflexivity.
Qed.

(** X19.  The cut never falls before a sentence end it could have kept: a
    period followed by a space that lies in the window, past its middle, is
    inside the chunk of that window. *)
Theorem window_keeps_late_sentence_ends (text : list ascii) cs start
  (raw : list ascii) e p :
  0 < cs -> 0 <= start ->
  window text cs start = (raw, e) ->
  start + cs / 2 < p -> p + 2 <= start + cs ->
  text !! Z.to_nat p = Some "."%char ->
  text !! Z.to_nat (p + 1) = Some " "%char ->
  p + 1 <= e /\ raw !! Z.to_nat (p - start) = Some "."%char.
Proof.
  intros Hcs Hs W Hmid Hfit Hdot Hspace.
  assert (0 <= cs / 2) by (apply Z.div_pos; lia).
  pose proof (lookup_lt_Some _ _ _ Hspace) as Hlen.
  assert (p + 1 < len text) as Hin by (unfold len; lia).
  pose proof W as W'. apply window_spec in W' as [He Hraw]; [|lia].
  specialize (Hraw Hs).
  assert (p + 1 <= e) as Hle.
  { revert W. unfold window.
    destruct (Z.ltb_spec (start + cs) (len text)) as [Hlong|Hshort];
      [|intros [= <- <-]; lia].
    set (chunk := slice text start (start + cs)).
    assert (Z.of_nat (Z.to_nat (p - start)) <= rfind chunk (str ". ")) as Hlast.
    { pose proof (rfind_from_last (str ". ") chunk 0 (Z.to_nat (p - start))) as Hl.
      rewrite Z.add_0_l in Hl. apply Hl; [lia | |].
      - assert (len chunk = cs) as Hc
          by (subst chunk; rewrite length_slice_inside; lia).
        unfold len in Hc. lia.
      - subst chunk. rewrite slice_nonneg by lia.
        apply period_space_startswith.
        + rewrite lookup_take_lt by lia. rewrite lookup_drop.
          rewrite <- Hdot. f_equal. lia.
        + rewrite lookup_take_lt by lia. rewrite lookup_drop.
          rewrite <- Hspace. f_equal. lia. }
    destruct (Z.ltb_spec (cs / 2) (rfind chunk (str ". "))); intros [= _ <-];
      change ["."%char; " "%char] with (str ". "); lia. }
  split; [done|]. rewrite Hraw, slice_nonneg by lia.
  rewrite lookup_take_lt by lia. rewrite lookup_drop.
  rewrite <- Hdot. f_equal. lia.
Qed.

Lemma window_keeps_late_sentence_ends_witness :
  6 + 1 <= 7 /\ str "abcdef." !! Z.to_nat (6 - 0) = Some "."%char.
Proof.
  apply (window_keeps_late_sentence_ends (str "abcdef. ghij") 10 0 (str "abcdef.") 7 6);
    [lia | lia | reflexivity | by vm_compute | lia | reflexivity | reflexivity].
Defined.

(** X20.  A chunk id can be read back.  For guidelines with a source tag of
    the allow-list, two ids are equal exactly when source tag, document id
    and chunk index are; and the records of one guideline are numbered from
    0 upwards in the order of its chunks. *)
Theorem protocol_id_reads_back g1 g2 i j chunks :
  g_source g1 ∈ ALLOWED_SOURCES -> g_source g2 ∈ ALLOWED_SOURCES ->
  (protocol_id g1 i = protocol_id g2 j
   <-> g_source g1 = g_source g2 /\ py_format (g_id g1) = py_format (g_id g2)
       /\ i = j)
  /\ (forall k, (k < length chunks)%nat ->
        p_id <$> protocols_of g1 chunks !! k = Some (protocol_id g1 k)
        /\ p_text <$> protocols_of g1 chunks !! k = chunks !! k).
Proof.
  intros H1 H2. split; [split|].
  - intros Heq. apply protocol_id_inj in Heq as [Hkey ->]; [|done..].
    injection Hkey as ? ?. done.
  - intros (Hs & Hid & ->). unfold protocol_id. by rewrite Hs, Hid.
  - intros k Hk. unfold protocols_of.
    destruct (lookup_lt_is_Some_2 chunks k Hk) as [c Hc].
    rewrite list_lookup_imap, Hc. done.
Qed.

Lemma protocol_id_reads_back_witness :
  let g := {| g_id := PyStr (str "a_chunk_1"); g_title := PyNone;
              g_source := str "who"; g_text := []; g_url := PyNone |} in
  let g' := {| g_id := PyStr (str "a"); g_title := PyNone;
               g_source := str "who"; g_text := []; g_url := PyNone |} in
  protocol_id g 2 <> protocol_id g' 2.
Proof.
  intros g g'.
  destruct (protocol_id_reads_back g g' 2 2 []) as [[Hdec _] _].
  - apply (bool_decide_unpack _). by vm_compute.
  - apply (bool_decide_unpack _). by vm_compute.
  - intros Heq. apply Hdec in Heq as (_ & Hid & _). by vm_compute in Hid.
Defined.
